(** * Payload functions of the handler: a shallow embedding

    Source: [core/handler/convert_fields_custom.go].

    The uplink functions decode raw bytes into fields, convert them and
    validate them; the downlink function encodes fields into raw bytes.  Every
    function hands a script to the JavaScript runtime ([functions.RunCode])
    and checks the shape of what comes back.

    The runtime itself is outside the file: it is a parameter here, and each
    call to it is recorded in a trace so that "which scripts ran, in which
    order and with which arguments" can be stated. *)

From Stdlib Require Import ZArith Lia Floats.SpecFloat.
From stdpp Require Import base gmap strings list.

Set Warnings "-register-all".
Set Default Proof Using "Type".
Local Open Scope Z_scope.

(** ** Go values *)

Module Go.

(** [int64(x)] on an integer operand keeps the low 64 bits, read as a
    two's-complement number. *)
Definition int64 (z : Z) : Z := (z + 2 ^ 63) mod 2 ^ 64 - 2 ^ 63.

(** [byte(n)] keeps the low 8 bits. *)
Definition byte (n : Z) : Z := n mod 256.

Definition fits_int64 (z : Z) : bool := (- 2 ^ 63 <=? z) && (z <? 2 ^ 63).

(** *** Floating point

    A [float64] is a [spec_float] of precision 53 and a [float32] one of
    precision 24; both are rounded to the nearest, ties to even. *)

Record format := { prec : Z; emax : Z }.
Definition binary32 : format := {| prec := 24; emax := 128 |}.
Definition binary64 : format := {| prec := 53; emax := 1024 |}.

(** [floatN(n)] for an integer [n]. *)
Definition of_int (fmt : format) (n : Z) : spec_float :=
  binary_normalize (prec fmt) (emax fmt) n 0 false.

(** The integer part of a float (the fraction is discarded), when the float
    is a number. *)
Definition truncate (t : spec_float) : option Z :=
  match t with
  | S754_zero _ => Some 0
  | S754_finite s m e => Some (cond_Zopp s (Z.shiftl (Z.pos m) e))
  | S754_infinity _ | S754_nan => None
  end.

(** The language leaves [int64(t)] to the implementation when the integer
    part of [t] is not an [int64] (NaN, infinities, magnitude 2^63 and
    beyond).  An architecture fixes that choice. *)
Class Arch := { unrepresentable : spec_float -> Z }.

(** x86-64: the "integer indefinite" value. *)
Definition amd64 : Arch := {| unrepresentable := fun _ => - 2 ^ 63 |}.

(** ARM64: NaN gives zero, everything else saturates. *)
Definition arm64 : Arch :=
  {| unrepresentable := fun t =>
       match t with
       | S754_nan | S754_zero _ => 0
       | S754_infinity s | S754_finite s _ _ =>
           if s then - 2 ^ 63 else 2 ^ 63 - 1
       end |}.

(** [int64(t)] for a float [t]. *)
Definition int64_of_float `{Arch} (t : spec_float) : Z :=
  match truncate t with
  | Some z => if fits_int64 z then z else int64 (unrepresentable t)
  | None => int64 (unrepresentable t)
  end.

(** [a != b] on floats of one format. *)
Definition float_neq (fmt : format) (a b : spec_float) : bool :=
  negb (SFeqb a b).

(** [m] shifted left by [k] bits. *)
Definition shl (m : positive) (k : nat) : positive := Nat.iter k xO m.

(** The whole number a float equals, when it equals one. *)
Definition integral (t : spec_float) : option Z :=
  match t with
  | S754_zero _ => Some 0
  | S754_finite s m e =>
      if 0 <=? e then Some (cond_Zopp s (Z.pos m * 2 ^ e))
      else if Z.pos m mod 2 ^ (- e) =? 0
           then Some (cond_Zopp s (Z.pos m / 2 ^ (- e)))
           else None
  | S754_infinity _ | S754_nan => None
  end.

(** A number with a fractional part. *)
Definition fractional (t : spec_float) : bool :=
  match t with
  | S754_finite _ m e => (e <? 0) && negb (Z.pos m mod 2 ^ (- e) =? 0)
  | _ => false
  end.

(** *** Dynamic values: what an [interface{}] can hold

    The integer constructors carry the number as a [Z]; a slice of any
    element type is the list of its elements, each boxed the way
    [reflect.Value.Index(i).Interface()] returns it. *)
Inductive iface : Type :=
  | INil
  | IBool (b : bool)
  | IString (s : string)
  | IUint8 (z : Z)            (* byte *)
  | IInt (z : Z)
  | IInt8 (z : Z)
  | IInt16 (z : Z)
  | IUint16 (z : Z)
  | IInt32 (z : Z)
  | IUint32 (z : Z)
  | IInt64 (z : Z)
  | IUint64 (z : Z)
  | IUint (z : Z)
  | IUintptr (z : Z)
  | IFloat32 (t : spec_float)
  | IFloat64 (t : spec_float)
  | IMap (m : option (gmap string iface))   (* map[string]interface{} *)
  | ISlice (l : list iface)
  | IArray (l : list iface)                 (* [N]T *)
  | IOther (type_name : string).            (* structs, pointers, other maps... *)

(** A [map[string]interface{}]; [None] is the nil map. *)
Abbreviation fields := (option (gmap string iface)).

(** A [[]byte]; [None] is the nil slice. *)
Abbreviation bytes := (option (list Z)).

Definition of_bytes (b : bytes) : iface := ISlice (IUint8 <$> default [] b).

(** [reflect.TypeOf(v).Kind() == reflect.Slice]; [None] when [v] is the nil
    interface, where the method call on the nil [reflect.Type] panics. *)
Definition is_slice_kind (v : iface) : option bool :=
  match v with
  | INil => None
  | ISlice _ => Some true
  | _ => Some false
  end.

(** [lo <= z <= hi]. *)
Definition in_range (lo hi z : Z) : bool := (lo <=? z) && (z <=? hi).

(** The numbers each numeric type can hold; [int], [uint] and [uintptr] are
    64 bits wide. *)
Definition well_formed (v : iface) : bool :=
  match v with
  | IUint8 z => in_range 0 255 z
  | IInt z | IInt64 z => in_range (- 2 ^ 63) (2 ^ 63 - 1) z
  | IInt8 z => in_range (- 128) 127 z
  | IInt16 z => in_range (- 32768) 32767 z
  | IUint16 z => in_range 0 65535 z
  | IInt32 z => in_range (- 2 ^ 31) (2 ^ 31 - 1) z
  | IUint32 z => in_range 0 (2 ^ 32 - 1) z
  | IUint64 z | IUint z | IUintptr z => in_range 0 (2 ^ 64 - 1) z
  | IFloat32 t => valid_binary (prec binary32) (emax binary32) t
  | IFloat64 t => valid_binary (prec binary64) (emax binary64) t
  | _ => true
  end.

Definition is_float (v : iface) : bool :=
  match v with IFloat32 _ | IFloat64 _ => true | _ => false end.

(** A floating-point value with a fractional part. *)
Definition has_fraction (v : iface) : bool :=
  match v with IFloat32 t | IFloat64 t => fractional t | _ => false end.

(** The whole number a value is, whatever its numeric type. *)
Definition whole (v : iface) : option Z :=
  match v with
  | IUint8 z | IInt z | IInt8 z | IInt16 z | IUint16 z | IInt32 z | IUint32 z
  | IInt64 z | IUint64 z | IUint z | IUintptr z => Some z
  | IFloat32 t | IFloat64 t => integral t
  | _ => None
  end.

(** [time.Duration] counts nanoseconds. *)
Module time.
Abbreviation Duration := Z (only parsing).
Definition Nanosecond : Duration := 1.
Definition Microsecond : Duration := 1000 * Nanosecond.
Definition Millisecond : Duration := 1000 * Microsecond.
End time.

End Go.

Import Go.

(** ** Errors

    Modelled from the spec: the [errors] package is not part of the file.
    [NewErrInvalidArgument argument reason] is kept as the pair of strings the
    caller passes; every other error is one the runtime produced (a timeout, a
    script exception). *)
Inductive error : Type :=
  | NewErrInvalidArgument (argument reason : string)
  | ErrRuntime (message : string).

#[global] Instance error_eq_dec : EqDecision error.
Proof. solve_decision. Defined.

(** The spec's names for the errors built in this file. *)
Definition InvalidReturnType (transform reason : string) : error :=
  NewErrInvalidArgument transform reason.
Definition OutOfRange : error :=
  NewErrInvalidArgument "Encoder Output" "Numbers in Array should be between 0 and 255".
Definition MissingEncoder : error :=
  NewErrInvalidArgument "Downlink Payload" "fields supplied, but no Encoder function set".

(** ** Values of the JavaScript runtime

    What the file uses of a runtime value: its tag ([IsObject], [IsBoolean]),
    its export to a Go value and its boolean reading.  An object carries the
    result of exporting it. *)
Module otto.

Inductive Value : Type :=
  | Undefined
  | Null
  | Boolean (b : bool)
  | Number (n : spec_float)
  | Str (s : string)
  | Object (exported : iface) (err : option error).

Definition IsObject (v : Value) : bool :=
  match v with Object _ _ => true | _ => false end.

Definition IsBoolean (v : Value) : bool :=
  match v with Boolean _ => true | _ => false end.

Definition Export (v : Value) : iface * option error :=
  match v with
  | Undefined | Null => (INil, None)
  | Boolean b => (IBool b, None)
  | Number n => (IFloat64 n, None)
  | Str s => (IString s, None)
  | Object exported err => (exported, err)
  end.

Definition ToBoolean (v : Value) : bool * option error :=
  match v with
  | Undefined | Null => (false, None)
  | Boolean b => (b, None)
  | Number n =>
      (match n with S754_zero _ | S754_nan => false | _ => true end, None)
  | Str s => (negb (String.eqb s ""), None)
  | Object _ _ => (true, None)
  end.

End otto.

(** ** Calls to the runtime, and the monad that records them *)

(** A call either returns or panics. *)
Inductive outcome (A : Type) : Type :=
  | Returns (a : A)
  | Panics.
Arguments Returns {A} a.
Arguments Panics {A}.

(** [functions.Logger] is a handle that is only passed on: a type parameter. *)
Record Call (Logger : Type) : Type := mkCall {
  call_name : string;
  call_code : string;
  call_env : gmap string iface;
  call_timeout : Z;
  call_logger : Logger
}.
Arguments mkCall {Logger}.
Arguments call_name {Logger}.
Arguments call_code {Logger}.
Arguments call_env {Logger}.
Arguments call_timeout {Logger}.
Arguments call_logger {Logger}.

(** The runtime: what a call returns, given the calls made before it. *)
Class Runtime (Logger : Type) : Type :=
  run : list (Call Logger) -> Call Logger -> otto.Value * option error.

Section Handler.

Context `{arch : Arch} {Logger : Type} {rt : Runtime Logger}.

Abbreviation Trace := (list (Call Logger)).

Definition M (A : Type) : Type := Trace -> outcome A * Trace.

#[export] Instance M_ret : MRet M := fun A a tr => (Returns a, tr).

#[export] Instance M_bind : MBind M := fun A B k m tr =>
  match m tr with
  | (Returns a, tr') => k a tr'
  | (Panics, tr') => (Panics, tr')
  end.

Definition panic {A} : M A := fun tr => (Panics, tr).

(** Modelled from the spec: [functions.RunCode] is not part of the file.  It
    takes a name, a code string, the bindings, a timeout and a logger, and
    returns a value or an error. *)
Definition RunCode (name code : string) (env : gmap string iface)
    (timeout : Z) (logger : Logger) : M (otto.Value * option error) :=
  fun tr =>
    let c := mkCall name code env timeout logger in
    (Returns (run tr c), tr ++ [c]).

(** ** The source *)

Record UplinkFunctions : Type := {
  Decoder : string;
  Converter : string;
  Validator : string;
  ULogger : Logger
}.

(** [var timeOut = 100 * time.Millisecond] *)
Definition timeOut : Z := 100 * time.Millisecond.

Definition NL : string := String (Ascii.ascii_of_nat 10) EmptyString.
Definition TAB : string := String (Ascii.ascii_of_nat 9) EmptyString.

(** [fmt.Sprintf] of the template shared by the four functions: the script,
    a semicolon, and the invocation on the next line. *)
Definition template (script invocation : string) : string :=
  NL +:+ TAB +:+ TAB +:+ script +:+ ";" +:+ NL +:+ TAB +:+ TAB
     +:+ invocation +:+ NL +:+ TAB.

Definition decoderCall (f : UplinkFunctions) (payload : bytes) (port : Z) : Call Logger :=
  mkCall "Decoder"
    (template (Decoder f) "Decoder(payload.slice(0), port);")
    {[ "payload" := of_bytes payload; "port" := IUint8 port ]}
    timeOut (ULogger f).

(** [UplinkFunctions.Decode], two results (line 35). *)
Definition Decode (f : UplinkFunctions) (payload : bytes) (port : Z)
    : M (fields * option error) :=
  if decide (Decoder f = "") then mret (None, None) else
  let env : gmap string iface :=
    {[ "payload" := of_bytes payload; "port" := IUint8 port ]} in
  let code := template (Decoder f) "Decoder(payload.slice(0), port);" in
  '(value, err) ← RunCode "Decoder" code env timeOut (ULogger f);
  match err with
  | Some e => mret (None, Some e)
  | None =>
      if negb (otto.IsObject value) then
        mret (None, Some (NewErrInvalidArgument "Decoder" "does not return an object"))
      else
        let '(v, _) := otto.Export value in
        match v with
        | IMap m => mret (m, None)
        | _ => mret (None, Some (NewErrInvalidArgument "Decoder" "does not return an object"))
        end
  end.

Definition converterCall (f : UplinkFunctions) (flds : fields) (port : Z) : Call Logger :=
  mkCall "Converter"
    (template (Converter f) "Converter(fields, port)")
    {[ "fields" := IMap flds; "port" := IUint8 port ]}
    timeOut (ULogger f).

(** [UplinkFunctions.Convert] (line 69). *)
Definition Convert (f : UplinkFunctions) (flds : fields) (port : Z)
    : M (fields * option error) :=
  if decide (Converter f = "") then mret (flds, None) else
  let env : gmap string iface :=
    {[ "fields" := IMap flds; "port" := IUint8 port ]} in
  let code := template (Converter f) "Converter(fields, port)" in
  '(value, err) ← RunCode "Converter" code env timeOut (ULogger f);
  match err with
  | Some e => mret (None, Some e)
  | None =>
      if negb (otto.IsObject value) then
        mret (None, Some (NewErrInvalidArgument "Converter" "does not return an object"))
      else
        let '(v, _) := otto.Export value in
        match v with
        | IMap m => mret (m, None)
        | _ => mret (None, Some (NewErrInvalidArgument "Converter" "does not return an object"))
        end
  end.

Definition validatorCall (f : UplinkFunctions) (flds : fields) (port : Z) : Call Logger :=
  mkCall "Validator"
    (template (Validator f) "Validator(fields, port)")
    {[ "fields" := IMap flds; "port" := IUint8 port ]}
    timeOut (ULogger f).

(** [UplinkFunctions.Validate] (line 104). *)
Definition Validate (f : UplinkFunctions) (flds : fields) (port : Z)
    : M (bool * option error) :=
  if decide (Validator f = "") then mret (true, None) else
  let env : gmap string iface :=
    {[ "fields" := IMap flds; "port" := IUint8 port ]} in
  let code := template (Validator f) "Validator(fields, port)" in
  '(value, err) ← RunCode "Validator" code env timeOut (ULogger f);
  match err with
  | Some e => mret (false, Some e)
  | None =>
      if negb (otto.IsBoolean value) then
        mret (false, Some (NewErrInvalidArgument "Validator" "does not return a boolean"))
      else mret (otto.ToBoolean value)
  end.

(** [UplinkFunctions.Decode], three results (line 131): decode, convert,
    validate. *)
Definition Decode_pipeline (f : UplinkFunctions) (payload : bytes) (port : Z)
    : M (fields * bool * option error) :=
  '(decoded, err) ← Decode f payload port;
  match err with
  | Some e => mret (None, false, Some e)
  | None =>
      '(converted, err) ← Convert f decoded port;
      match err with
      | Some e => mret (None, false, Some e)
      | None =>
          '(valid, err) ← Validate f converted port;
          mret (converted, valid, err)
      end
  end.

Record DownlinkFunctions : Type := {
  Encoder : string;
  DLogger : Logger
}.

Definition encoderCall (f : DownlinkFunctions) (payload : fields) (port : Z) : Call Logger :=
  mkCall "Encoder"
    (template (Encoder f) "Encoder(payload, port)")
    {[ "payload" := IMap payload; "port" := IUint8 port ]}
    timeOut (DLogger f).

Definition notIntegers : error :=
  NewErrInvalidArgument "Encoder" "should return an Array of integer numbers".

(** The type switch of the loop body (lines 201-232): the element as an
    [int64], or the error the case returns. *)
Definition typeSwitch (el : iface) : Z + error :=
  match el with
  | IUint8 t | IInt t | IInt8 t | IInt16 t | IUint16 t
  | IInt32 t | IUint32 t | IInt64 t | IUint64 t => inl (int64 t)
  | IFloat32 t =>
      let n := int64_of_float t in
      if float_neq binary32 (of_int binary32 n) t then inr notIntegers else inl n
  | IFloat64 t =>
      let n := int64_of_float t in
      if float_neq binary64 (of_int binary64 n) t then inr notIntegers else inl n
  | _ => inr notIntegers
  end.

(** The loop (lines 196-239) from index [i] on; [s] holds the elements not
    visited yet and [res] is the slice being filled. *)
Fixpoint encodeLoop (s : list iface) (i : nat) (res : list Z)
    : bytes * option error :=
  match s with
  | [] => (Some res, None)
  | el :: s' =>
      match typeSwitch el with
      | inr e => (None, Some e)
      | inl n =>
          if (n <? 0) || (255 <? n) then (None, Some OutOfRange)
          else encodeLoop s' (S i) (<[i := byte n]> res)
      end
  end.

(** Lines 190-241: [res := make([]byte, l)], then the loop. *)
Definition encodeSlice (s : list iface) : bytes * option error :=
  encodeLoop s 0%nat (replicate (length s) 0).

(** The types the switch has a case for. *)
Definition handled (el : iface) : bool :=
  match el with
  | IUint8 _ | IInt _ | IInt8 _ | IInt16 _ | IUint16 _ | IInt32 _ | IUint32 _
  | IInt64 _ | IUint64 _ | IFloat32 _ | IFloat64 _ => true
  | _ => false
  end.

(** An element the loop lets through: of a type the switch handles, and a
    whole number from 0 to 255. *)
Definition accepted (el : iface) : bool :=
  handled el &&
  match whole el with
  | Some z => (0 <=? z) && (z <=? 255)
  | None => false
  end.

(** [DownlinkFunctions.Encode], two results (line 158). *)
Definition Encode (f : DownlinkFunctions) (payload : fields) (port : Z)
    : M (bytes * option error) :=
  if decide (Encoder f = "") then mret (None, Some MissingEncoder) else
  let env : gmap string iface :=
    {[ "payload" := IMap payload; "port" := IUint8 port ]} in
  let code := template (Encoder f) "Encoder(payload, port)" in
  '(value, err) ← RunCode "Encoder" code env timeOut (DLogger f);
  match err with
  | Some e => mret (None, Some e)
  | None =>
      if negb (otto.IsObject value) then
        mret (None, Some (NewErrInvalidArgument "Encoder" "does not return an object"))
      else
        let '(v, err) := otto.Export value in
        match err with
        | Some e => mret (None, Some e)
        | None =>
            match is_slice_kind v with
            | None => panic
            | Some false =>
                mret (None, Some (NewErrInvalidArgument "Encoder" "does not return an Array"))
            | Some true =>
                match v with
                | ISlice s => mret (encodeSlice s)
                | _ => panic
                end
            end
        end
  end.

(** [DownlinkFunctions.Encode], three results (line 245). *)
Definition Encode_pipeline (f : DownlinkFunctions) (payload : fields) (port : Z)
    : M (bytes * bool * option error) :=
  '(encoded, err) ← Encode f payload port;
  match err with
  | Some e => mret (None, false, Some e)
  | None => mret (encoded, true, None)
  end.


(** ** The three checks on a result

    What a stage makes of the runtime's answer: an object that exports to a
    field map, a boolean, a slice of small whole numbers. *)

Definition objectMode (name : string) (r : otto.Value * option error)
    : fields * option error :=
  match r.2 with
  | Some e => (None, Some e)
  | None =>
      match r.1 with
      | otto.Object (IMap m) _ => (m, None)
      | _ => (None, Some (InvalidReturnType name "does not return an object"))
      end
  end.

Definition booleanMode (r : otto.Value * option error) : bool * option error :=
  match r.2 with
  | Some e => (false, Some e)
  | None =>
      match r.1 with
      | otto.Boolean b => (b, None)
      | _ => (false, Some (InvalidReturnType "Validator" "does not return a boolean"))
      end
  end.

Definition byteArrayMode (r : otto.Value * option error)
    : outcome (bytes * option error) :=
  match r.2 with
  | Some e => Returns (None, Some e)
  | None =>
      match r.1 with
      | otto.Object _ (Some e) => Returns (None, Some e)
      | otto.Object INil None => Panics
      | otto.Object (ISlice s) None => Returns (encodeSlice s)
      | otto.Object _ None =>
          Returns (None, Some (InvalidReturnType "Encoder" "does not return an Array"))
      | _ => Returns (None, Some (InvalidReturnType "Encoder" "does not return an object"))
      end
  end.

(** The calls a computation adds to the trace all satisfy [P]. *)
Definition appends {A} (m : M A) (P : Call Logger -> Prop) : Prop :=
  forall tr, exists calls, (m tr).2 = tr ++ calls /\ Forall P calls.

End Handler.

Arguments M : clear implicits.

(** ** Concrete runs

    A runtime for the examples: what a script returns depends only on the
    name it is called under.  The logger is the unit value. *)

Definition scripted (answer : string -> otto.Value * option error)
    : Runtime unit :=
  fun _ c => answer (call_name c).

Definition an_object : otto.Value :=
  otto.Object (IMap (Some {[ "a" := IInt64 1 ]})) None.

(** The Decoder returns [{a: 1}], the Validator the string ["Hello"]. *)
Definition validator_says_hello (name : string) : otto.Value * option error :=
  if decide (name = "Validator") then (otto.Str "Hello", None) else (an_object, None).

(** The Decoder returns [{a: 1}], the Validator [false]. *)
Definition validator_says_false (name : string) : otto.Value * option error :=
  if decide (name = "Validator") then (otto.Boolean false, None) else (an_object, None).

(** Every script returns the number 1. *)
Definition always_one (name : string) : otto.Value * option error :=
  (otto.Number (of_int binary64 1), None).

(** Every script runs out of time. *)
Definition always_late (name : string) : otto.Value * option error :=
  (otto.Undefined, Some (ErrRuntime "timeout")).

(** The Encoder returns the array [s]. *)
Definition encoder_returns (s : list iface) : Runtime unit :=
  scripted (fun _ => (otto.Object (ISlice s) None, None)).

(** 2^64 and 1.5 as [float64]. *)
Definition two_pow_64 : spec_float := S754_finite false (2 ^ 52) 12.
Definition one_and_a_half : spec_float := S754_finite false (3 * 2 ^ 51) (- 52).

Definition no_scripts : @UplinkFunctions unit :=
  {| Decoder := ""; Converter := ""; Validator := ""; ULogger := tt |}.

Definition decode_and_validate : @UplinkFunctions unit :=
  {| Decoder := "function Decoder(b, p) { return { a: b[0] } }";
     Converter := "";
     Validator := "function Validator(f, p) { return f.a > 1 }";
     ULogger := tt |}.

Definition no_encoder : @DownlinkFunctions unit :=
  {| Encoder := ""; DLogger := tt |}.

Definition some_encoder : @DownlinkFunctions unit :=
  {| Encoder := "function Encoder(f, p) { return [ f.a ] }"; DLogger := tt |}.

(** ** Further definitions *)

(** The Go values that hold a byte's number, for every type that holds all of
    them. *)
Definition byte_boxings : list (Z -> iface) :=
  [ IUint8; IInt; IInt16; IUint16; IInt32; IUint32; IInt64; IUint64;
    (fun z => IFloat32 (of_int binary32 z));
    (fun z => IFloat64 (of_int binary64 z)) ].



(** The Decoder returns [{a: 1}], the Validator [true]. *)
Definition validator_says_true (name : string) : otto.Value * option error :=
  if decide (name = "Validator") then (otto.Boolean true, None) else (an_object, None).

(** * Properties *)

(** ** Rounding an integer that the format holds exactly *)

Section Rounding.

Variables prec emax : Z.

Lemma iter_pos_nat {A} (f : A -> A) p : forall x,
  SpecFloat.iter_pos f p x = Nat.iter (Pos.to_nat p) f x.
Proof.
  induction p as [p IH|p IH|]; intros x; cbn [SpecFloat.iter_pos].
  - rewrite !IH, Pos2Nat.inj_xI.
    replace (S (2 * Pos.to_nat p)) with (Pos.to_nat p + (Pos.to_nat p + 1))%nat by lia.
    rewrite !Nat.iter_add. reflexivity.
  - rewrite !IH, Pos2Nat.inj_xO.
    replace (2 * Pos.to_nat p)%nat with (Pos.to_nat p + Pos.to_nat p)%nat by lia.
    rewrite Nat.iter_add. reflexivity.
  - reflexivity.
Qed.

Lemma Pos_iter_shl m d : Pos.iter xO m d = shl m (Pos.to_nat d).
Proof. apply Pos2Nat.inj_iter. Qed.

Lemma digits_shl m k :
  Z.pos (digits2_pos (shl m k)) = Z.pos (digits2_pos m) + Z.of_nat k.
Proof.
  induction k as [|k IH]; [simpl; lia|].
  unfold shl in *. rewrite Nat.iter_succ. simpl digits2_pos. lia.
Qed.

Lemma Zpos_shl m k : Z.pos (shl m k) = Z.pos m * 2 ^ Z.of_nat k.
Proof.
  induction k as [|k IH]; [simpl; lia|].
  unfold shl in *. rewrite Nat.iter_succ, Nat2Z.inj_succ, Z.pow_succ_r by lia.
  rewrite Pos2Z.inj_xO, IH. ring.
Qed.

Lemma shr_shl m k :
  Nat.iter k shr_1 (Build_shr_record (Z.pos (shl m k)) false false) =
    Build_shr_record (Z.pos m) false false.
Proof.
  induction k as [|k IH]; [reflexivity|].
  rewrite Nat.iter_succ_r. unfold shl. rewrite Nat.iter_succ. exact IH.
Qed.

Lemma round_aux_shifted s m e k :
  bounded prec emax m e = true ->
  binary_round_aux prec emax s (Z.pos (shl m k)) (e - Z.of_nat k) loc_Exact =
    S754_finite s m e.
Proof.
  unfold bounded, canonical_mantissa. intros [Hc Hb]%andb_prop.
  apply Z.eqb_eq in Hc.
  unfold binary_round_aux, shr_fexp. simpl Zdigits2. simpl shr_record_of_loc.
  rewrite digits_shl.
  replace (Z.pos (digits2_pos m) + Z.of_nat k + (e - Z.of_nat k))
    with (Z.pos (digits2_pos m) + e) by lia.
  rewrite Hc.
  replace (e - (e - Z.of_nat k)) with (Z.of_nat k) by lia.
  assert (Hshr : shr (Build_shr_record (Z.pos (shl m k)) false false)
                   (e - Z.of_nat k) (Z.of_nat k) =
                 (Build_shr_record (Z.pos m) false false, e)).
  { destruct k as [|k].
    - simpl. f_equal. lia.
    - unfold shr.
      change (Z.of_nat (S k)) with (Z.pos (Pos.of_succ_nat k)).
      cbv beta iota. rewrite iter_pos_nat, SuccNat2Pos.id_succ, shr_shl. f_equal. lia. }
  rewrite Hshr. simpl. rewrite Hc, Z.sub_diag. simpl. rewrite Hb. reflexivity.
Qed.

Lemma binary_round_exact s m e q :
  bounded prec emax m e = true ->
  (0 <= e /\ q = shl m (Z.to_nat e)) \/ (e < 0 /\ m = shl q (Z.to_nat (- e))) ->
  binary_round prec emax s q 0 = S754_finite s m e.
Proof.
  intros Hb Hq. pose proof Hb as Hb'.
  unfold bounded, canonical_mantissa in Hb'. apply andb_prop in Hb' as [Hc _].
  apply Z.eqb_eq in Hc.
  unfold binary_round, shl_align.
  destruct Hq as [[He ->]|[He ->]].
  - rewrite digits_shl, Z2Nat.id, Z.add_0_r, Hc, Z.sub_0_r by lia.
    destruct e as [|p|p]; try lia.
    + apply (round_aux_shifted s m 0 0 Hb).
    + replace 0 with (Z.pos p - Z.of_nat (Z.to_nat (Z.pos p))) at 1 by lia.
      apply round_aux_shifted, Hb.
  - rewrite digits_shl, Z2Nat.id in Hc by lia.
    replace (Z.pos (digits2_pos q) + 0) with (Z.pos (digits2_pos q) + - e + e) by lia.
    rewrite Hc, Z.sub_0_r.
    destruct e as [|p|p]; try lia.
    rewrite Pos_iter_shl. simpl Z.opp.
    change (Z.to_nat (Z.pos p)) with (Pos.to_nat p).
    replace (Z.neg p) with (Z.neg p - Z.of_nat 0) at 2 by (simpl; lia).
    apply (round_aux_shifted s _ (Z.neg p) 0%nat Hb).
Qed.
Ltac gen_pow :=
  repeat match goal with
         | H : context [2 ^ ?x] |- _ => generalize dependent (2 ^ x)
         | |- context [2 ^ ?x] => generalize dependent (2 ^ x)
         end; intros; lia.

Lemma digits_bounds p :
  2 ^ (Z.pos (digits2_pos p) - 1) <= Z.pos p < 2 ^ Z.pos (digits2_pos p).
Proof.
  induction p as [p IH|p IH|]; simpl digits2_pos.
  - rewrite Pos2Z.inj_succ. change (Z.pos p~1) with (2 * Z.pos p + 1).
    replace (Z.succ (Z.pos (digits2_pos p)) - 1) with (Z.succ (Z.pos (digits2_pos p) - 1)) by lia.
    rewrite !Z.pow_succ_r by lia. gen_pow.
  - rewrite Pos2Z.inj_succ. change (Z.pos p~0) with (2 * Z.pos p).
    replace (Z.succ (Z.pos (digits2_pos p)) - 1) with (Z.succ (Z.pos (digits2_pos p) - 1)) by lia.
    rewrite !Z.pow_succ_r by lia. gen_pow.
  - vm_compute. split; [discriminate|reflexivity].
Qed.

Lemma digits_mono p q : Z.pos p <= Z.pos q -> Z.pos (digits2_pos p) <= Z.pos (digits2_pos q).
Proof.
  intros H. pose proof (digits_bounds p). pose proof (digits_bounds q).
  destruct (Z_le_gt_dec (Z.pos (digits2_pos p)) (Z.pos (digits2_pos q))) as [|Hgt]; [assumption|].
  assert (2 ^ Z.pos (digits2_pos q) <= 2 ^ (Z.pos (digits2_pos p) - 1)).
  { apply Z.pow_le_mono_r; lia. }
  lia.
Qed.

Lemma SFeqb_finite s1 m1 e1 s2 m2 e2 :
  SFeqb (S754_finite s1 m1 e1) (S754_finite s2 m2 e2) = true ->
  s1 = s2 /\ m1 = m2 /\ e1 = e2.
Proof.
  unfold SFeqb, SFcompare.
  destruct s1, s2; try discriminate;
    destruct (Z.compare_spec e1 e2); try discriminate;
    destruct (Pos.compare_cont Eq m1 m2) eqn:Hm; try discriminate;
    apply Pcompare_Eq_eq in Hm; auto.
Qed.

Lemma SFeqb_finite_refl s m e : SFeqb (S754_finite s m e) (S754_finite s m e) = true.
Proof.
  unfold SFeqb, SFcompare. rewrite Z.compare_refl, Pcompare_refl. destruct s; reflexivity.
Qed.

Lemma normalize_cond_Zopp s q :
  binary_normalize prec emax (cond_Zopp s (Z.pos q)) 0 false = binary_round prec emax s q 0.
Proof. destruct s; reflexivity. Qed.

Lemma shl_inj_Z m q k : Z.pos m = Z.pos q * 2 ^ Z.of_nat k -> m = shl q k.
Proof. rewrite <- Zpos_shl. congruence. Qed.

(** A whole number held by the format converts back to the float it came from. *)
Lemma normalize_integral t z :
  valid_binary prec emax t = true -> integral t = Some z ->
  SFeqb (binary_normalize prec emax z 0 false) t = true.
Proof.
  destruct t as [s| | |s m e]; simpl; try discriminate.
  - intros _ [= <-]. reflexivity.
  - intros Hb. destruct (Z.leb_spec 0 e) as [He|He].
    + intros [= <-].
      rewrite <- (Z2Nat.id e) at 1 by lia. rewrite <- Zpos_shl, normalize_cond_Zopp.
      rewrite (binary_round_exact s m e) by auto.
      apply SFeqb_finite_refl.
    + destruct (Z.eqb_spec (Z.pos m mod 2 ^ (- e)) 0) as [Hm|]; [|discriminate].
      intros [= <-].
      assert (Hpow : 0 < 2 ^ (- e)) by (apply Z.pow_pos_nonneg; lia).
      pose proof (Z_div_mod_eq_full (Z.pos m) (2 ^ (- e))) as Hdiv.
      rewrite Hm, Z.add_0_r in Hdiv.
      destruct (Z.pos m / 2 ^ (- e)) as [|q|q] eqn:Hq; try lia.
      rewrite normalize_cond_Zopp.
      rewrite (binary_round_exact s m e q Hb).
      * apply SFeqb_finite_refl.
      * right. split; [lia|]. apply shl_inj_Z. rewrite Z2Nat.id by lia. lia.
Qed.

(** The integer part of a float with a fractional part converts to another float. *)
Lemma normalize_fractional t n :
  2 <= emax -> prec <= emax ->
  valid_binary prec emax t = true -> fractional t = true -> truncate t = Some n ->
  SFeqb (binary_normalize prec emax n 0 false) t = false.
Proof.
  intros Hemax Hprec.
  destruct t as [s| | |s m e]; simpl; try discriminate.
  intros Hb [He Hm]%andb_prop [= <-].
  apply Z.ltb_lt in He. apply negb_true_iff, Z.eqb_neq in Hm.
  rewrite Z.shiftl_div_pow2 by lia.
  assert (Hpow : 2 <= 2 ^ (- e)).
  { change 2 with (2 ^ 1) at 1. apply Z.pow_le_mono_r; lia. }
  pose proof (Z_div_mod_eq_full (Z.pos m) (2 ^ (- e))) as Hdiv.
  pose proof (Z.mod_pos_bound (Z.pos m) (2 ^ (- e)) ltac:(lia)) as Hmod.
  pose proof (Z.div_pos (Z.pos m) (2 ^ (- e)) ltac:(lia) ltac:(lia)) as Hnn.
  destruct (Z.pos m / 2 ^ (- e)) as [|q|q] eqn:Hq; try lia.
  { destruct s; reflexivity. }
  rewrite normalize_cond_Zopp.
  pose proof Hb as Hb'. unfold bounded, canonical_mantissa, fexp in Hb'.
  apply andb_prop in Hb' as [Hc%Z.eqb_eq _].
  assert (Hd : Z.pos (digits2_pos q) <= Z.pos (digits2_pos m)).
  { apply digits_mono. nia. }
  set (k := prec - Z.pos (digits2_pos q)).
  assert (Hk : 0 <= k) by lia.
  assert (Hb2 : bounded prec emax (shl q (Z.to_nat k)) (- k) = true).
  { unfold bounded, canonical_mantissa, fexp, emin.
    rewrite digits_shl, Z2Nat.id by lia.
    apply andb_true_intro. split; [apply Z.eqb_eq|apply Z.leb_le]; lia. }
  rewrite (binary_round_exact s _ (- k) q Hb2).
  2:{ destruct (Z.eq_dec k 0) as [Hk0|Hk0].
      - left. rewrite Hk0. split; [simpl; lia|reflexivity].
      - right. split; [lia|]. rewrite Z.opp_involutive. reflexivity. }
  destruct (SFeqb (S754_finite s (shl q (Z.to_nat k)) (- k)) (S754_finite s m e)) eqn:E;
    [|reflexivity].
  apply SFeqb_finite in E as (_ & E1 & E2). exfalso. apply Hm.
  rewrite <- E1, Zpos_shl, Z2Nat.id by lia.
  replace (- e) with k by lia. apply Z.mod_mul. lia.
Qed.

(** The integer part of a float with a fractional part is below 2^prec. *)
Lemma truncate_fractional_small t n :
  valid_binary prec emax t = true -> fractional t = true -> truncate t = Some n ->
  - 2 ^ prec < n < 2 ^ prec.
Proof.
  destruct t as [s| | |s m e]; simpl; try discriminate.
  intros Hb [He Hm]%andb_prop [= <-].
  apply Z.ltb_lt in He.
  unfold bounded, canonical_mantissa, fexp in Hb.
  apply andb_prop in Hb as [Hc%Z.eqb_eq _].
  pose proof (digits_bounds m) as [_ Hlt].
  assert (2 ^ Z.pos (digits2_pos m) <= 2 ^ prec) by (apply Z.pow_le_mono_r; lia).
  rewrite Z.shiftl_div_pow2 by lia.
  assert (0 < 2 ^ (- e)) by (apply Z.pow_pos_nonneg; lia).
  assert (0 <= Z.pos m / 2 ^ (- e) <= Z.pos m).
  { split; [apply Z.div_pos; lia|]. apply Z.div_le_upper_bound; nia. }
  destruct s; simpl; lia.
Qed.

Lemma integral_truncate t z : integral t = Some z -> truncate t = Some z.
Proof.
  destruct t as [s| | |s m e]; simpl; try discriminate; [auto|].
  destruct (Z.leb_spec 0 e).
  - intros [= <-]. rewrite Z.shiftl_mul_pow2 by lia. reflexivity.
  - destruct (Z.pos m mod 2 ^ (- e) =? 0); [|discriminate].
    intros [= <-]. rewrite Z.shiftl_div_pow2 by lia. reflexivity.
Qed.
End Rounding.


Section Properties.

Context `{arch : Arch} {Logger : Type} {rt : Runtime Logger}.

Implicit Types tr : list (Call Logger).

Ltac run_stage :=
  intros; unfold Decode, Convert, Validate, Encode, RunCode, mbind, M_bind, mret, M_ret;
  case_decide; [reflexivity|];
  unfold decoderCall, converterCall, validatorCall, encoderCall,
    objectMode, booleanMode, byteArrayMode;
  match goal with |- context [run ?tr ?c] => destruct (run tr c) as [[] []] end;
  simpl; try reflexivity;
  repeat match goal with
         | |- context [match ?x with _ => _ end] => is_var x; destruct x; simpl
         end;
  reflexivity.

Lemma Decode_eq f payload port tr :
  Decode f payload port tr =
    if decide (Decoder f = "") then (Returns (None, None), tr)
    else (Returns (objectMode "Decoder" (run tr (decoderCall f payload port))),
          tr ++ [decoderCall f payload port]).
Proof. run_stage. Qed.

Lemma Convert_eq f flds port tr :
  Convert f flds port tr =
    if decide (Converter f = "") then (Returns (flds, None), tr)
    else (Returns (objectMode "Converter" (run tr (converterCall f flds port))),
          tr ++ [converterCall f flds port]).
Proof. run_stage. Qed.

Lemma Validate_eq f flds port tr :
  Validate f flds port tr =
    if decide (Validator f = "") then (Returns (true, None), tr)
    else (Returns (booleanMode (run tr (validatorCall f flds port))),
          tr ++ [validatorCall f flds port]).
Proof. run_stage. Qed.

Lemma Encode_eq f payload port tr :
  Encode f payload port tr =
    if decide (Encoder f = "") then (Returns (None, Some MissingEncoder), tr)
    else (byteArrayMode (run tr (encoderCall f payload port)),
          tr ++ [encoderCall f payload port]).
Proof. run_stage. Qed.

Lemma Decode_pipeline_eq f payload port tr :
  Decode_pipeline f payload port tr =
    match Decode f payload port tr with
    | (Returns (_, Some e), tr1) => (Returns (None, false, Some e), tr1)
    | (Returns (decoded, None), tr1) =>
        match Convert f decoded port tr1 with
        | (Returns (_, Some e), tr2) => (Returns (None, false, Some e), tr2)
        | (Returns (converted, None), tr2) =>
            match Validate f converted port tr2 with
            | (Returns (valid, err), tr3) => (Returns (converted, valid, err), tr3)
            | (Panics, tr3) => (Panics, tr3)
            end
        | (Panics, tr2) => (Panics, tr2)
        end
    | (Panics, tr1) => (Panics, tr1)
    end.
Proof.
  unfold Decode_pipeline, mbind, M_bind, mret, M_ret.
  destruct (Decode f payload port tr) as [[[decoded [e|]]|] tr1]; try reflexivity.
  destruct (Convert f decoded port tr1) as [[[converted [e|]]|] tr2]; try reflexivity.
  destruct (Validate f converted port tr2) as [[[valid err]|] tr3]; reflexivity.
Qed.

Lemma Encode_pipeline_eq f payload port tr :
  Encode_pipeline f payload port tr =
    match Encode f payload port tr with
    | (Returns (_, Some e), tr1) => (Returns (None, false, Some e), tr1)
    | (Returns (encoded, None), tr1) => (Returns (encoded, true, None), tr1)
    | (Panics, tr1) => (Panics, tr1)
    end.
Proof.
  unfold Encode_pipeline, mbind, M_bind, mret, M_ret.
  destruct (Encode f payload port tr) as [[[encoded [e|]]|] tr1]; reflexivity.
Qed.

Lemma appends_nothing {A} (m : M Logger A) P :
  (forall tr, (m tr).2 = tr) -> appends m P.
Proof. intros H tr. exists []. rewrite H, app_nil_r. auto. Qed.

Lemma appends_one {A} (m : M Logger A) (P : Call Logger -> Prop) c :
  P c -> (forall tr, (m tr).2 = tr \/ (m tr).2 = tr ++ [c]) -> appends m P.
Proof.
  intros Hc H tr. destruct (H tr) as [E|E]; rewrite E.
  - exists []. rewrite app_nil_r. auto.
  - exists [c]. auto.
Qed.

Lemma appends_weaken {A} (m : M Logger A) (P Q : Call Logger -> Prop) :
  (forall c, P c -> Q c) -> appends m P -> appends m Q.
Proof.
  intros HPQ H tr. destruct (H tr) as (calls & E & HP).
  exists calls. split; [exact E|]. eapply Forall_impl; eauto.
Qed.

Lemma Decode_appends f payload port :
  appends (Decode f payload port) (fun c => c = decoderCall f payload port).
Proof.
  apply appends_one with (c := decoderCall f payload port); [reflexivity|].
  intros tr. rewrite Decode_eq. case_decide; auto.
Qed.

Lemma Convert_appends f flds port :
  appends (Convert f flds port) (fun c => c = converterCall f flds port).
Proof.
  apply appends_one with (c := converterCall f flds port); [reflexivity|].
  intros tr. rewrite Convert_eq. case_decide; auto.
Qed.

Lemma Validate_appends f flds port :
  appends (Validate f flds port) (fun c => c = validatorCall f flds port).
Proof.
  apply appends_one with (c := validatorCall f flds port); [reflexivity|].
  intros tr. rewrite Validate_eq. case_decide; auto.
Qed.

Lemma Encode_appends f payload port :
  appends (Encode f payload port) (fun c => c = encoderCall f payload port).
Proof.
  apply appends_one with (c := encoderCall f payload port); [reflexivity|].
  intros tr. rewrite Encode_eq. case_decide; auto.
Qed.

(** The stages of the uplink never panic. *)
Lemma Decode_returns f payload port tr :
  exists r, (Decode f payload port tr).1 = Returns r.
Proof. rewrite Decode_eq. case_decide; eauto. Qed.

Lemma Convert_returns f flds port tr :
  exists r, (Convert f flds port tr).1 = Returns r.
Proof. rewrite Convert_eq. case_decide; eauto. Qed.

Lemma Validate_returns f flds port tr :
  exists r, (Validate f flds port tr).1 = Returns r.
Proof. rewrite Validate_eq. case_decide; eauto. Qed.

(** The loop never hands back both a slice and an error. *)
Lemma encodeLoop_error s : forall i res out e,
  encodeLoop s i res = (out, Some e) -> out = None.
Proof.
  induction s as [|el s IH]; intros i res out e; simpl.
  - congruence.
  - destruct (typeSwitch el) as [n|e']; [|congruence].
    destruct ((n <? 0) || (255 <? n)); [congruence|]. apply IH.
Qed.

Lemma byteArrayMode_error r out e :
  byteArrayMode r = Returns (out, Some e) -> out = None.
Proof.
  unfold byteArrayMode, encodeSlice. destruct r as [v [e'|]]; simpl; [congruence|].
  destruct v as [| | | | |exported err]; try congruence.
  destruct exported, err; try congruence.
  intros [= H]. eapply encodeLoop_error, H.
Qed.

Lemma appends_bind {A B} (m : M Logger A) (k : A -> M Logger B) P :
  appends m P -> (forall a, appends (k a) P) -> appends (mbind k m) P.
Proof.
  intros Hm Hk tr. unfold mbind, M_bind.
  destruct (Hm tr) as (c1 & E1 & F1).
  destruct (m tr) as [[a|] tr1]; simpl in E1; subst tr1.
  - destruct (Hk a (tr ++ c1)) as (c2 & E2 & F2).
    exists (c1 ++ c2). rewrite E2, app_assoc. split; [reflexivity|].
    apply Forall_app_2; assumption.
  - exists c1. auto.
Qed.

Lemma appends_ret {A} (a : A) P : appends (mret a : M Logger A) P.
Proof. apply appends_nothing. reflexivity. Qed.

Lemma Decode_pipeline_appends f payload port (P : Call Logger -> Prop) :
  (forall flds, P (decoderCall f payload port) /\
                P (converterCall f flds port) /\ P (validatorCall f flds port)) ->
  appends (Decode_pipeline f payload port) P.
Proof.
  intros HP. unfold Decode_pipeline.
  apply appends_bind.
  { eapply appends_weaken, Decode_appends. intros c ->. apply (HP None). }
  intros [decoded [e|]]; [apply appends_ret|].
  apply appends_bind.
  { eapply appends_weaken, Convert_appends. intros c ->. apply HP. }
  intros [converted [e|]]; [apply appends_ret|].
  apply appends_bind.
  { eapply appends_weaken, Validate_appends. intros c ->. apply HP. }
  intros [valid err]. apply appends_ret.
Qed.

Lemma Encode_pipeline_appends f payload port (P : Call Logger -> Prop) :
  P (encoderCall f payload port) -> appends (Encode_pipeline f payload port) P.
Proof.
  intros HP. unfold Encode_pipeline.
  apply appends_bind.
  { eapply appends_weaken, Encode_appends. intros c ->. exact HP. }
  intros [encoded [e|]]; apply appends_ret.
Qed.

(** What one stage leaves in the trace. *)
Lemma Decode_trace f payload port tr r tr1 :
  Decode f payload port tr = (r, tr1) ->
  tr1 = tr \/ tr1 = tr ++ [decoderCall f payload port].
Proof. rewrite Decode_eq. case_decide; intros [= _ <-]; auto. Qed.

Lemma Convert_trace f flds port tr r tr1 :
  Convert f flds port tr = (r, tr1) ->
  tr1 = tr \/ tr1 = tr ++ [converterCall f flds port].
Proof. rewrite Convert_eq. case_decide; intros [= _ <-]; auto. Qed.

Lemma Validate_trace f flds port tr r tr1 :
  Validate f flds port tr = (r, tr1) ->
  tr1 = tr \/ tr1 = tr ++ [validatorCall f flds port].
Proof. rewrite Validate_eq. case_decide; intros [= _ <-]; auto. Qed.

Ltac solve_sublist :=
  unfold decoderCall, converterCall, validatorCall; simpl;
  solve [repeat first [apply sublist_nil | apply sublist_skip | apply sublist_cons]].

Lemma Validate_error_invalid f flds port tr v e tr' :
  Validate f flds port tr = (Returns (v, Some e), tr') -> v = false.
Proof.
  rewrite Validate_eq. case_decide; [discriminate|]. unfold booleanMode.
  destruct (run tr (validatorCall f flds port)) as [value [e'|]]; simpl.
  - congruence.
  - destruct value; congruence.
Qed.

(** [tr' = tr ++ ?calls], for a [tr'] that is [tr] with calls appended. *)
Ltac trace_eq :=
  first [ symmetry; apply app_nil_r
        | rewrite <- ?app_assoc; reflexivity ].

(** ** The claims *)

(** C3. With the Decoder, the Converter and the Validator all empty, the
    uplink returns nil fields, valid = true and no error, for every payload
    and port: the empty Decoder is skipped with nil fields, the empty
    Converter hands its input back unchanged, the empty Validator answers
    true.  No script runs: the trace is left as it was. *)
Theorem uplink_all_scripts_empty f payload port tr :
  Decoder f = "" -> Converter f = "" -> Validator f = "" ->
  Decode f payload port tr = (Returns (None, None), tr) /\
  (forall flds tr', Convert f flds port tr' = (Returns (flds, None), tr')) /\
  (forall flds tr', Validate f flds port tr' = (Returns (true, None), tr')) /\
  Decode_pipeline f payload port tr = (Returns (None, true, None), tr).
Proof.
  intros HD HC HV.
  assert (E1 : Decode f payload port tr = (Returns (None, None), tr)).
  { rewrite Decode_eq. case_decide; [reflexivity|contradiction]. }
  assert (E2 : forall flds tr', Convert f flds port tr' = (Returns (flds, None), tr')).
  { intros. rewrite Convert_eq. case_decide; [reflexivity|contradiction]. }
  assert (E3 : forall flds tr', Validate f flds port tr' = (Returns (true, None), tr')).
  { intros. rewrite Validate_eq. case_decide; [reflexivity|contradiction]. }
  repeat split; try assumption.
  rewrite Decode_pipeline_eq, E1, E2, E3. reflexivity.
Qed.

(** C4. With an empty Encoder, the downlink called on a non-empty field map
    returns no bytes, ok = false and the missing-Encoder error, and runs no
    script. *)
Theorem downlink_fields_without_encoder f (m : gmap string iface) port tr :
  m <> ∅ -> Encoder f = "" ->
  Encode_pipeline f (Some m) port tr = (Returns (None, false, Some MissingEncoder), tr).
Proof.
  intros _ HE. rewrite Encode_pipeline_eq, Encode_eq.
  case_decide; [reflexivity|contradiction].
Qed.

(** C9. [Encode] with an empty Encoder returns the missing-Encoder error for
    every payload, the nil map and the empty map included, and runs no
    script. *)
Theorem Encode_without_encoder f port tr :
  Encoder f = "" ->
  (forall payload,
     Encode f payload port tr = (Returns (None, Some MissingEncoder), tr)) /\
  Encode f None port tr = (Returns (None, Some MissingEncoder), tr) /\
  Encode f (Some ∅) port tr = (Returns (None, Some MissingEncoder), tr).
Proof.
  intros HE.
  assert (E : forall payload,
            Encode f payload port tr = (Returns (None, Some MissingEncoder), tr)).
  { intros. rewrite Encode_eq. case_decide; [reflexivity|contradiction]. }
  auto.
Qed.

(** C10. Whenever [Encode] returns an error, the byte slice it returns with
    it is nil; the downlink pipeline then returns nil bytes and ok = false. *)
Theorem Encode_error_without_bytes f payload port tr :
  (forall out e tr', Encode f payload port tr = (Returns (out, Some e), tr') ->
     out = None) /\
  (forall out ok e tr',
     Encode_pipeline f payload port tr = (Returns (out, ok, Some e), tr') ->
     out = None /\ ok = false).
Proof.
  split.
  - intros out e tr'. rewrite Encode_eq. case_decide.
    + congruence.
    + intros [= Hmode _]. eapply byteArrayMode_error, Hmode.
  - intros out ok e tr'. rewrite Encode_pipeline_eq.
    destruct (Encode f payload port tr) as [[[encoded [e'|]]|] tr1];
      intros [= ? ? ?]; subst; try discriminate; auto.
Qed.

(** C8. Every call to the runtime made by the Decoder, Converter, Validator
    and Encoder functions, and so by the two pipelines, passes the one
    timeout [timeOut], which is 100 milliseconds. *)
Theorem every_call_passes_timeOut :
  timeOut = 100 * time.Millisecond /\
  timeOut = 100000000 * time.Nanosecond /\
  forall uf df payload flds port,
    appends (Decode uf payload port) (fun c => call_timeout c = timeOut) /\
    appends (Convert uf flds port) (fun c => call_timeout c = timeOut) /\
    appends (Validate uf flds port) (fun c => call_timeout c = timeOut) /\
    appends (Encode df flds port) (fun c => call_timeout c = timeOut) /\
    appends (Decode_pipeline uf payload port) (fun c => call_timeout c = timeOut) /\
    appends (Encode_pipeline df flds port) (fun c => call_timeout c = timeOut).
Proof.
  split; [reflexivity|]. split; [reflexivity|]. intros.
  repeat split.
  - eapply appends_weaken, Decode_appends. intros c ->. reflexivity.
  - eapply appends_weaken, Convert_appends. intros c ->. reflexivity.
  - eapply appends_weaken, Validate_appends. intros c ->. reflexivity.
  - eapply appends_weaken, Encode_appends. intros c ->. reflexivity.
  - apply Decode_pipeline_appends. intros. repeat split.
  - apply Encode_pipeline_appends. reflexivity.
Qed.

(** C5. When the Decoder (the Converter) script runs and its result is not
    an object that exports to a string-keyed field map -- a scalar, an
    array, null, a boolean -- the stage returns no field map and the error
    naming the transform: "Decoder (Converter) ... does not return an
    object". *)
Theorem non_object_result_is_rejected f payload flds port tr value :
  (forall m e, value <> otto.Object (IMap m) e) ->
  (Decoder f <> "" ->
   run tr (decoderCall f payload port) = (value, None) ->
   Decode f payload port tr =
     (Returns (None, Some (InvalidReturnType "Decoder" "does not return an object")),
      tr ++ [decoderCall f payload port])) /\
  (Converter f <> "" ->
   run tr (converterCall f flds port) = (value, None) ->
   Convert f flds port tr =
     (Returns (None, Some (InvalidReturnType "Converter" "does not return an object")),
      tr ++ [converterCall f flds port])).
Proof.
  intros Hv. split; intros Hs Hr.
  - rewrite Decode_eq. case_decide; [contradiction|].
    rewrite Hr. unfold objectMode. simpl.
    destruct value as [| | | | |[] ?]; try reflexivity. edestruct Hv; reflexivity.
  - rewrite Convert_eq. case_decide; [contradiction|].
    rewrite Hr. unfold objectMode. simpl.
    destruct value as [| | | | |[] ?]; try reflexivity. edestruct Hv; reflexivity.
Qed.

(** C6. When decoding and converting succeed and the Validator script
    returns the boolean false, the uplink returns the converted fields,
    valid = false and no error.  That outcome is told apart from a failure
    of the Validate stage: a Validator that raises an error or returns
    something other than a boolean always gives an error, and a result
    with valid = false and no error only comes from a Validator that
    returned false. *)
Theorem validator_false_is_a_rejection f payload port tr decoded tr1 converted tr2 :
  Decode f payload port tr = (Returns (decoded, None), tr1) ->
  Convert f decoded port tr1 = (Returns (converted, None), tr2) ->
  Validator f <> "" ->
  run tr2 (validatorCall f converted port) = (otto.Boolean false, None) ->
  Decode_pipeline f payload port tr =
    (Returns (converted, false, None), tr2 ++ [validatorCall f converted port]) /\
  (forall flds tr' value err,
     run tr' (validatorCall f flds port) = (value, err) ->
     err <> None \/ otto.IsBoolean value = false ->
     exists e, Validate f flds port tr' =
                 (Returns (false, Some e), tr' ++ [validatorCall f flds port])) /\
  (forall flds tr' tr'',
     Validate f flds port tr' = (Returns (false, None), tr'') ->
     run tr' (validatorCall f flds port) = (otto.Boolean false, None)).
Proof.
  intros HD HC HV Hr. split; [|split].
  - rewrite Decode_pipeline_eq, HD, HC, Validate_eq.
    case_decide; [contradiction|]. rewrite Hr. reflexivity.
  - intros flds tr' value err Hrun Hbad. rewrite Validate_eq.
    case_decide; [contradiction|]. rewrite Hrun. unfold booleanMode. simpl.
    destruct err as [e|]; [eauto|].
    destruct Hbad as [?|Hb]; [contradiction|].
    destruct value; try discriminate; eauto.
  - intros flds tr' tr''. rewrite Validate_eq.
    case_decide; [discriminate|]. unfold booleanMode.
    destruct (run tr' (validatorCall f flds port)) as [value [e|]]; simpl;
      [discriminate|].
    destruct value as [| |[]| | |]; try discriminate. reflexivity.
Qed.

(** C7. The uplink runs Decode, then Convert on what Decode returned, then
    Validate on what Convert returned, and stops at the first failure.  The
    calls it adds to the trace are, in this order, at most one to the
    Decoder, one to the Converter and one to the Validator.  If Decode
    fails, the result is (nil, false, that error) and only the Decoder was
    called; if Convert fails, the result is (nil, false, that error) and
    the Validator was not called. *)
Theorem uplink_stage_order f payload port tr :
  exists calls,
    (Decode_pipeline f payload port tr).2 = tr ++ calls /\
    call_name <$> calls `sublist_of` ["Decoder"; "Converter"; "Validator"] /\
    (forall d e tr1,
       Decode f payload port tr = (Returns (d, Some e), tr1) ->
       Decode_pipeline f payload port tr = (Returns (None, false, Some e), tr1) /\
       Forall (fun c => call_name c = "Decoder") calls) /\
    (forall d tr1 c e tr2,
       Decode f payload port tr = (Returns (d, None), tr1) ->
       Convert f d port tr1 = (Returns (c, Some e), tr2) ->
       Decode_pipeline f payload port tr = (Returns (None, false, Some e), tr2) /\
       Forall (fun c => call_name c <> "Validator") calls) /\
    (forall d tr1 c tr2 v err tr3,
       Decode f payload port tr = (Returns (d, None), tr1) ->
       Convert f d port tr1 = (Returns (c, None), tr2) ->
       Validate f c port tr2 = (Returns (v, err), tr3) ->
       Decode_pipeline f payload port tr = (Returns (c, v, err), tr3)).
Proof.
  rewrite Decode_pipeline_eq.
  destruct (Decode f payload port tr) as [r1 tr1] eqn:HD.
  destruct (Decode_returns f payload port tr) as [[d e1] Hr1].
  rewrite HD in Hr1. simpl in Hr1. subst r1.
  pose proof (Decode_trace _ _ _ _ _ _ HD) as T1.
  destruct e1 as [e1|].
  { destruct T1 as [-> | ->]; eexists;
      (split; [simpl; trace_eq|]);
      (split; [solve_sublist|]);
      (split; [intros ? ? ? [= _ <- <-]; split; [reflexivity|repeat constructor]|]);
      (split; intros; discriminate). }
  destruct (Convert f d port tr1) as [r2 tr2] eqn:HC.
  destruct (Convert_returns f d port tr1) as [[c e2] Hr2].
  rewrite HC in Hr2. simpl in Hr2. subst r2.
  pose proof (Convert_trace _ _ _ _ _ _ HC) as T2.
  destruct e2 as [e2|].
  { destruct T1 as [-> | ->], T2 as [-> | ->]; eexists;
      (split; [simpl; trace_eq|]);
      (split; [solve_sublist|]);
      (split; [intros; discriminate|]);
      (split; [|intros ? ? ? ? ? ? ? [= <- <-]; rewrite HC; discriminate]);
      intros ? ? ? ? ? [= <- <-]; rewrite HC; intros [= _ <- <-];
      (split; [reflexivity|]);
      repeat constructor; unfold decoderCall, converterCall; simpl; discriminate. }
  destruct (Validate f c port tr2) as [r3 tr3] eqn:HV.
  destruct (Validate_returns f c port tr2) as [[v e3] Hr3].
  rewrite HV in Hr3. simpl in Hr3. subst r3.
  pose proof (Validate_trace _ _ _ _ _ _ HV) as T3.
  destruct T1 as [-> | ->], T2 as [-> | ->], T3 as [-> | ->]; eexists;
    (split; [simpl; trace_eq|]);
    (split; [solve_sublist|]);
    (split; [intros; discriminate|]);
    (split; [intros ? ? ? ? ? [= <- <-]; rewrite HC; discriminate|]);
    intros ? ? ? ? ? ? ? [= <- <-]; rewrite HC; intros [= <- <-]; rewrite HV;
    intros [= <- <- <-]; reflexivity.
Qed.

(** C1 (amended). Whenever a stage of the uplink returns an error, the
    pipeline returns that error with valid = false.  The field map is nil
    when the failing stage is Decode or Convert.  When Validate fails, the
    last statement hands back the converted fields beside the error: a
    Validator that returns a string yields valid = false and the error
    "Validator ... does not return a boolean", with whatever fields Convert
    produced. *)
Theorem uplink_error_outcome f payload port tr :
  (forall flds valid e tr',
     Decode_pipeline f payload port tr = (Returns (flds, valid, Some e), tr') ->
     valid = false) /\
  (forall d e tr1,
     Decode f payload port tr = (Returns (d, Some e), tr1) ->
     Decode_pipeline f payload port tr = (Returns (None, false, Some e), tr1)) /\
  (forall d tr1 c e tr2,
     Decode f payload port tr = (Returns (d, None), tr1) ->
     Convert f d port tr1 = (Returns (c, Some e), tr2) ->
     Decode_pipeline f payload port tr = (Returns (None, false, Some e), tr2)) /\
  (forall d tr1 c tr2 v e tr3,
     Decode f payload port tr = (Returns (d, None), tr1) ->
     Convert f d port tr1 = (Returns (c, None), tr2) ->
     Validate f c port tr2 = (Returns (v, Some e), tr3) ->
     Decode_pipeline f payload port tr = (Returns (c, false, Some e), tr3)) /\
  (forall c tr2 s,
     Validator f <> "" ->
     run tr2 (validatorCall f c port) = (otto.Str s, None) ->
     Validate f c port tr2 =
       (Returns (false, Some (InvalidReturnType "Validator" "does not return a boolean")),
        tr2 ++ [validatorCall f c port])).
Proof.
  repeat split.
  - intros flds valid e tr'. rewrite Decode_pipeline_eq.
    destruct (Decode f payload port tr) as [[[d [e1|]]|] tr1]; try congruence.
    destruct (Convert f d port tr1) as [[[c [e2|]]|] tr2]; try congruence.
    destruct (Validate f c port tr2) as [[[v e3]|] tr3] eqn:HV; try congruence.
    intros [= <- <- -> <-]. eapply Validate_error_invalid, HV.
  - intros d e tr1 HD. rewrite Decode_pipeline_eq, HD. reflexivity.
  - intros d tr1 c e tr2 HD HC. rewrite Decode_pipeline_eq, HD, HC. reflexivity.
  - intros d tr1 c tr2 v e tr3 HD HC HV.
    rewrite Decode_pipeline_eq, HD, HC, HV.
    rewrite (Validate_error_invalid _ _ _ _ _ _ _ HV). reflexivity.
  - intros c tr2 s0 HV Hr. rewrite Validate_eq.
    case_decide; [contradiction|]. rewrite Hr. reflexivity.
Qed.

(** ** The byte array *)

Lemma int64_small z : - 2 ^ 63 <= z < 2 ^ 63 -> int64 z = z.
Proof. intros H. unfold int64. rewrite Z.mod_small; lia. Qed.

Lemma int64_large z : 2 ^ 63 <= z < 2 ^ 64 -> int64 z = z - 2 ^ 64.
Proof.
  intros H. unfold int64.
  replace (z + 2 ^ 63) with (z - 2 ^ 63 + 1 * 2 ^ 64) by lia.
  rewrite Z.mod_add, Z.mod_small; lia.
Qed.

Lemma fits_int64_spec z : fits_int64 z = true <-> - 2 ^ 63 <= z < 2 ^ 63.
Proof. unfold fits_int64. rewrite andb_true_iff, Z.leb_le, Z.ltb_lt. reflexivity. Qed.

Lemma in_range_spec lo hi z : in_range lo hi z = true <-> lo <= z <= hi.
Proof. unfold in_range. rewrite andb_true_iff, !Z.leb_le. reflexivity. Qed.

Lemma int64_of_fractional (fmt : format) t :
  prec fmt <= 63 ->
  valid_binary (prec fmt) (emax fmt) t = true -> fractional t = true ->
  truncate t = Some (int64_of_float t).
Proof.
  intros Hp Hv Hf. unfold int64_of_float.
  destruct (truncate t) as [n|] eqn:Ht.
  - pose proof (truncate_fractional_small _ _ t n Hv Hf Ht) as Hn.
    assert (2 ^ prec fmt <= 2 ^ 63) by (apply Z.pow_le_mono_r; lia).
    assert (Hfit : fits_int64 n = true) by (apply fits_int64_spec; lia).
    rewrite Hfit. reflexivity.
  - destruct t; discriminate.
Qed.

Lemma int64_of_integral t z :
  integral t = Some z -> fits_int64 z = true -> int64_of_float t = z.
Proof.
  intros Hi Hfit. unfold int64_of_float.
  rewrite (integral_truncate t z Hi), Hfit. reflexivity.
Qed.

(** A float with a fractional part takes the error branch of its case. *)
Lemma typeSwitch_fraction el :
  well_formed el = true -> has_fraction el = true -> typeSwitch el = inr notIntegers.
Proof.
  destruct el; try discriminate; simpl; intros Hv Hf;
    unfold float_neq, of_int; cbn [prec emax binary32 binary64].
  - rewrite (normalize_fractional 24 128 t (int64_of_float t)); auto; try lia.
    apply (int64_of_fractional binary32); auto. simpl; lia.
  - rewrite (normalize_fractional 53 1024 t (int64_of_float t)); auto; try lia.
    apply (int64_of_fractional binary64); auto. simpl; lia.
Qed.

(** A whole number of a type the switch handles comes out as an [int64]:
    the number itself, or for a [uint64] from 2^63 on a negative one. *)
Lemma typeSwitch_whole el z :
  well_formed el = true -> handled el = true -> whole el = Some z ->
  (is_float el = true -> fits_int64 z = true) ->
  exists n, typeSwitch el = inl n /\
            (0 <= z <= 255 -> n = z) /\ (~ 0 <= z <= 255 -> ~ 0 <= n <= 255).
Proof.
  destruct el; try discriminate; simpl; intros Hwf _ [= Hz] Hfit;
    try (apply in_range_spec in Hwf; subst z0).
  1-8: (eexists; split; [reflexivity|]; rewrite int64_small by lia; split; auto).
  - destruct (Z_lt_ge_dec z (2 ^ 63)).
    + eexists; split; [reflexivity|]. rewrite int64_small by lia. split; auto.
    + eexists; split; [reflexivity|]. rewrite int64_large by lia. split; lia.
  - exists z. specialize (Hfit eq_refl).
    rewrite (int64_of_integral t z Hz Hfit). unfold float_neq, of_int; cbn [prec emax binary32 binary64].
    rewrite (normalize_integral 24 128 t z Hwf Hz). simpl. auto.
  - exists z. specialize (Hfit eq_refl).
    rewrite (int64_of_integral t z Hz Hfit). unfold float_neq, of_int; cbn [prec emax binary32 binary64].
    rewrite (normalize_integral 53 1024 t z Hwf Hz). simpl. auto.
Qed.

Lemma typeSwitch_accepted el :
  well_formed el = true -> accepted el = true ->
  exists z, whole el = Some z /\ typeSwitch el = inl z /\ 0 <= z <= 255.
Proof.
  unfold accepted. intros Hwf [Hh Hw]%andb_prop.
  destruct (whole el) as [z|] eqn:Hz; [|discriminate].
  apply andb_prop in Hw as [H0%Z.leb_le H255%Z.leb_le].
  destruct (typeSwitch_whole el z Hwf Hh Hz) as (n & Hn & Hin & _).
  { intros _. apply fits_int64_spec. lia. }
  exists z. rewrite Hn, Hin by lia. auto.
Qed.

Lemma encodeLoop_accepted s : forall i res,
  length res = (i + length s)%nat ->
  Forall (fun el => well_formed el = true /\ accepted el = true) s ->
  exists out, Forall2 (fun el b => whole el = Some b) s out /\
              encodeLoop s i res = (Some (take i res ++ out), None).
Proof.
  induction s as [|el s IH]; intros i res Hlen Hall; simpl.
  - exists []. split; [constructor|]. rewrite app_nil_r, take_ge by (simpl in Hlen; lia).
    reflexivity.
  - apply Forall_cons in Hall as [[Hwf Hacc] Hall].
    destruct (typeSwitch_accepted el Hwf Hacc) as (z & Hz & Hsw & Hr).
    rewrite Hsw.
    destruct (Z.ltb_spec z 0); [lia|]. destruct (Z.ltb_spec 255 z); [lia|]. simpl.
    destruct (IH (S i) (<[i:=byte z]> res)) as (out & Hout & Heq); [|assumption|].
    { rewrite length_insert. simpl in Hlen. lia. }
    exists (z :: out). split; [constructor; assumption|].
    rewrite Heq. f_equal. f_equal.
    rewrite (take_S_r _ _ (byte z)).
    + rewrite take_insert_ge by lia. rewrite <- app_assoc. simpl.
      unfold byte. rewrite Z.mod_small by lia. reflexivity.
    + apply list_lookup_insert_eq. simpl in Hlen. lia.
Qed.

Lemma encodeLoop_prefix pre : forall rest i res,
  Forall (fun el => well_formed el = true /\ accepted el = true) pre ->
  exists res', encodeLoop (pre ++ rest) i res = encodeLoop rest (i + length pre)%nat res'.
Proof.
  induction pre as [|el pre IH]; intros rest i res Hall; simpl.
  - exists res. rewrite Nat.add_0_r. reflexivity.
  - apply Forall_cons in Hall as [[Hwf Hacc] Hall].
    destruct (typeSwitch_accepted el Hwf Hacc) as (z & Hz & Hsw & Hr).
    rewrite Hsw.
    destruct (Z.ltb_spec z 0); [lia|]. destruct (Z.ltb_spec 255 z); [lia|]. simpl.
    destruct (IH rest (S i) (<[i:=byte z]> res) Hall) as (res' & Heq).
    exists res'. rewrite Heq. f_equal. lia.
Qed.
(** C2 (amended). When the Encoder returns an array, [Encode] walks it in
    order and stops at the first element it does not accept.  An element is
    accepted when its type is one the switch handles (byte, int, int8, int16,
    uint16, int32, uint32, int64, uint64, float32, float64) and it is a whole
    number from 0 to 255.  If the first element not accepted is a float with
    a fractional part, the error is "should return an Array of integer
    numbers"; if it is a whole number outside 0..255 -- of an integer type
    the switch handles, or a float within the int64 range -- the error is
    the out-of-range one.  If every element is accepted, the result is the
    byte slice of the same length holding the elements in their order. *)
Theorem Encode_byte_array f payload port tr (s : list iface) :
  Encoder f <> "" ->
  run tr (encoderCall f payload port) = (otto.Object (ISlice s) None, None) ->
  Forall (fun el => well_formed el = true) s ->
  Encode f payload port tr =
    (Returns (encodeSlice s), tr ++ [encoderCall f payload port]) /\
  (forall pre el post,
     s = pre ++ el :: post ->
     Forall (fun x => accepted x = true) pre ->
     (has_fraction el = true ->
      encodeSlice s =
        (None, Some (InvalidReturnType "Encoder"
                       "should return an Array of integer numbers"))) /\
     (forall z,
        handled el = true -> whole el = Some z ->
        (is_float el = true -> fits_int64 z = true) ->
        ~ 0 <= z <= 255 ->
        encodeSlice s = (None, Some OutOfRange))) /\
  (Forall (fun x => accepted x = true) s ->
   exists out,
     encodeSlice s = (Some out, None) /\
     length out = length s /\
     Forall2 (fun el b => whole el = Some b) s out).
Proof.
  intros HE Hrun Hwf. split; [|split].
  - rewrite Encode_eq. case_decide; [contradiction|]. rewrite Hrun. reflexivity.
  - intros pre el post -> Hpre.
    apply Forall_app in Hwf as [Hwf_pre Hwf_rest].
    apply Forall_cons in Hwf_rest as [Hwf_el _].
    assert (Hboth : Forall (fun x => well_formed x = true /\ accepted x = true) pre).
    { apply Forall_and. auto. }
    unfold encodeSlice.
    destruct (encodeLoop_prefix pre (el :: post) 0%nat
                (replicate (length (pre ++ el :: post)) 0) Hboth) as (res' & ->).
    split.
    + intros Hfrac. simpl. rewrite (typeSwitch_fraction el Hwf_el Hfrac). reflexivity.
    + intros z Hh Hz Hfit Hout. simpl.
      destruct (typeSwitch_whole el z Hwf_el Hh Hz Hfit) as (n & -> & _ & Hn).
      specialize (Hn Hout).
      destruct (Z.ltb_spec n 0); [reflexivity|].
      destruct (Z.ltb_spec 255 n); [reflexivity|]. lia.
  - intros Hacc.
    assert (Hboth : Forall (fun x => well_formed x = true /\ accepted x = true) s).
    { apply Forall_and. auto. }
    destruct (encodeLoop_accepted s 0%nat (replicate (length s) 0)) as (out & Hout & Heq);
      [by rewrite length_replicate|assumption|].
    exists out. split; [exact Heq|]. split; [|exact Hout].
    symmetry. eapply Forall2_length, Hout.
Qed.

End Properties.

(** ** Witnesses and counterexamples *)

Lemma uplink_all_scripts_empty_witness :
  Decode_pipeline (rt := scripted always_one) no_scripts (Some [1; 2]) 1 [] =
    (Returns (None, true, None), []).
Proof.
  exact (proj2 (proj2 (proj2
    (uplink_all_scripts_empty (rt := scripted always_one) no_scripts (Some [1; 2]) 1 []
       eq_refl eq_refl eq_refl)))).
Defined.

Lemma downlink_fields_without_encoder_witness :
  Encode_pipeline (arch := amd64) (rt := scripted always_one) no_encoder
      (Some {[ "a" := IInt64 1 ]}) 1 [] =
    (Returns (None, false, Some MissingEncoder), []).
Proof.
  apply (downlink_fields_without_encoder (arch := amd64)); [|reflexivity].
  intros H. apply (f_equal (fun m => m !! "a")) in H. vm_compute in H. discriminate H.
Defined.

Lemma Encode_without_encoder_witness :
  Encode (arch := amd64) (rt := scripted always_one) no_encoder None 1 [] =
    (Returns (None, Some MissingEncoder), []).
Proof.
  exact (proj1 (proj2
    (Encode_without_encoder (arch := amd64) (rt := scripted always_one) no_encoder 1 [] eq_refl))).
Defined.

Lemma non_object_result_is_rejected_witness :
  Decode (rt := scripted always_one) decode_and_validate (Some [7]) 1 [] =
    (Returns (None, Some (InvalidReturnType "Decoder" "does not return an object")),
     [decoderCall decode_and_validate (Some [7]) 1]).
Proof.
  refine (proj1 (non_object_result_is_rejected (rt := scripted always_one)
              decode_and_validate (Some [7]) None 1 [] _ _) _ eq_refl).
  - intros m e. discriminate.
  - discriminate.
Defined.

Lemma validator_false_is_a_rejection_witness :
  Decode_pipeline (rt := scripted validator_says_false) decode_and_validate (Some [1]) 1 [] =
    (Returns (Some {[ "a" := IInt64 1 ]}, false, None),
     [decoderCall decode_and_validate (Some [1]) 1;
      validatorCall decode_and_validate (Some {[ "a" := IInt64 1 ]}) 1]).
Proof.
  refine (proj1 (validator_false_is_a_rejection (rt := scripted validator_says_false)
            decode_and_validate (Some [1]) 1 [] (Some {[ "a" := IInt64 1 ]})
            [decoderCall decode_and_validate (Some [1]) 1]
            (Some {[ "a" := IInt64 1 ]})
            [decoderCall decode_and_validate (Some [1]) 1] _ _ _ _)).
  - reflexivity.
  - reflexivity.
  - discriminate.
  - reflexivity.
Defined.

Lemma uplink_error_outcome_witness :
  Decode_pipeline (rt := scripted always_late) decode_and_validate (Some [1]) 1 [] =
    (Returns (None, false, Some (ErrRuntime "timeout")),
     [decoderCall decode_and_validate (Some [1]) 1]).
Proof.
  refine (proj1 (proj2 (uplink_error_outcome (rt := scripted always_late)
            decode_and_validate (Some [1]) 1 [])) None _ _ _).
  reflexivity.
Defined.

(** C1, as stated, fails: the Decoder returns an object, the Validator a
    string.  The Validate stage errors, yet the pipeline returns the decoded
    fields, not nil. *)
Lemma validate_error_keeps_fields :
  Validate (rt := scripted validator_says_hello) decode_and_validate
      (Some {[ "a" := IInt64 1 ]}) 1 [decoderCall decode_and_validate (Some [1]) 1] =
    (Returns (false, Some (InvalidReturnType "Validator" "does not return a boolean")),
     [decoderCall decode_and_validate (Some [1]) 1;
      validatorCall decode_and_validate (Some {[ "a" := IInt64 1 ]}) 1]) /\
  Decode_pipeline (rt := scripted validator_says_hello) decode_and_validate (Some [1]) 1 [] =
    (Returns (Some {[ "a" := IInt64 1 ]}, false,
              Some (InvalidReturnType "Validator" "does not return a boolean")),
     [decoderCall decode_and_validate (Some [1]) 1;
      validatorCall decode_and_validate (Some {[ "a" := IInt64 1 ]}) 1]) /\
  Some ({[ "a" := IInt64 1 ]} : gmap string iface) <> None.
Proof. repeat split; discriminate. Qed.

Lemma Encode_byte_array_witness :
  Encode (arch := amd64)
      (rt := encoder_returns [IFloat64 (of_int binary64 0); IFloat64 (of_int binary64 255)])
      some_encoder (Some {[ "a" := IInt64 1 ]}) 1 [] =
    (Returns (Some [0; 255], None),
     [encoderCall some_encoder (Some {[ "a" := IInt64 1 ]}) 1]).
Proof.
  refine (proj1 (Encode_byte_array (arch := amd64)
            (rt := encoder_returns [IFloat64 (of_int binary64 0); IFloat64 (of_int binary64 255)])
            some_encoder (Some {[ "a" := IInt64 1 ]}) 1 []
            [IFloat64 (of_int binary64 0); IFloat64 (of_int binary64 255)] _ _ _)).
  - discriminate.
  - reflexivity.
  - repeat constructor.
Defined.

(** C2, as stated, fails.  The float 2^64 is a whole number outside 0..255,
    yet the error is the one for non-integers, on both architectures.  In
    [256, 1.5] the second element has a fractional part, yet the error is the
    out-of-range one of the first.  A [uint] 5 is a whole number within
    0..255, yet there are no bytes. *)
Lemma whole_numbers_rejected_as_non_integers :
  (whole (IFloat64 two_pow_64) = Some (2 ^ 64) /\
   well_formed (IFloat64 two_pow_64) = true /\
   encodeSlice (arch := amd64) [IFloat64 two_pow_64] =
     (None, Some (InvalidReturnType "Encoder" "should return an Array of integer numbers")) /\
   encodeSlice (arch := arm64) [IFloat64 two_pow_64] =
     (None, Some (InvalidReturnType "Encoder" "should return an Array of integer numbers")) /\
   Encode (arch := amd64) (rt := encoder_returns [IFloat64 two_pow_64])
       some_encoder (Some {[ "a" := IInt64 1 ]}) 1 [] =
     (Returns (None, Some (InvalidReturnType "Encoder"
                             "should return an Array of integer numbers")),
      [encoderCall some_encoder (Some {[ "a" := IInt64 1 ]}) 1]) /\
   InvalidReturnType "Encoder" "should return an Array of integer numbers" <> OutOfRange) /\
  (has_fraction (IFloat64 one_and_a_half) = true /\
   encodeSlice (arch := amd64) [IInt64 256; IFloat64 one_and_a_half] =
     (None, Some OutOfRange)) /\
  (whole (IUint 5) = Some 5 /\
   encodeSlice (arch := amd64) [IUint 5] =
     (None, Some (InvalidReturnType "Encoder" "should return an Array of integer numbers"))).
Proof. repeat split; discriminate. Qed.

Lemma uplink_stage_order_witness :
  Decode_pipeline (rt := scripted always_late) decode_and_validate (Some [1]) 1 [] =
    (Returns (None, false, Some (ErrRuntime "timeout")),
     [decoderCall decode_and_validate (Some [1]) 1]) /\
  exists calls,
    (Decode_pipeline (rt := scripted always_late) decode_and_validate (Some [1]) 1 []).2 =
      [] ++ calls /\
    Forall (fun c => call_name c = "Decoder") calls.
Proof.
  destruct (uplink_stage_order (rt := scripted always_late)
              decode_and_validate (Some [1]) 1 []) as (calls & Htrace & _ & Hdecode & _).
  destruct (Hdecode None (ErrRuntime "timeout")
              [decoderCall decode_and_validate (Some [1]) 1] eq_refl) as [Hres Hcalls].
  split; [exact Hres|]. exists calls. split; assumption.
Defined.

Lemma Encode_error_without_bytes_witness :
  exists out e tr',
    Encode (arch := amd64) (rt := encoder_returns [IInt64 7; IInt64 256])
        some_encoder (Some {[ "a" := IInt64 1 ]}) 1 [] = (Returns (out, Some e), tr') /\
    e = OutOfRange /\ out = None.
Proof.
  exists None, OutOfRange, [encoderCall some_encoder (Some {[ "a" := IInt64 1 ]}) 1].
  split; [reflexivity|]. split; [reflexivity|].
  apply (proj1 (Encode_error_without_bytes (arch := amd64)
                  (rt := encoder_returns [IInt64 7; IInt64 256])
                  some_encoder (Some {[ "a" := IInt64 1 ]}) 1 [])
           None OutOfRange [encoderCall some_encoder (Some {[ "a" := IInt64 1 ]}) 1]).
  reflexivity.
Defined.

(** * Further properties *)

(** ** Small whole numbers as floats *)

Section SmallIntegers.

Variables prec emax : Z.
Hypothesis Hemax : 2 <= emax.
Hypothesis Hprec : prec <= emax.

Lemma bounded_shl q :
  Z.pos (digits2_pos q) <= prec ->
  bounded prec emax (shl q (Z.to_nat (prec - Z.pos (digits2_pos q))))
    (- (prec - Z.pos (digits2_pos q))) = true.
Proof using Hemax Hprec.
  intros Hd. unfold bounded, canonical_mantissa, fexp, emin.
  rewrite digits_shl, Z2Nat.id by lia.
  apply andb_true_intro. split; [apply Z.eqb_eq|apply Z.leb_le]; lia.
Qed.

Lemma binary_round_small s q :
  Z.pos (digits2_pos q) <= prec ->
  binary_round prec emax s q 0 =
    S754_finite s (shl q (Z.to_nat (prec - Z.pos (digits2_pos q))))
      (- (prec - Z.pos (digits2_pos q))).
Proof using Hemax Hprec.
  intros Hd. apply binary_round_exact; [apply bounded_shl, Hd|].
  destruct (Z.eq_dec (prec - Z.pos (digits2_pos q)) 0) as [Hk|Hk].
  - left. rewrite Hk. split; [simpl; lia|reflexivity].
  - right. split; [lia|]. rewrite Z.opp_involutive. reflexivity.
Qed.

Lemma integral_shl s q k :
  0 <= k ->
  integral (S754_finite s (shl q (Z.to_nat k)) (- k)) = Some (cond_Zopp s (Z.pos q)).
Proof.
  intros Hk. unfold integral. rewrite Zpos_shl, Z2Nat.id by lia.
  destruct (Z.leb_spec 0 (- k)).
  - replace k with 0 by lia. simpl. do 2 f_equal. lia.
  - rewrite Z.opp_involutive, Z.mod_mul, Z.div_mul by lia. reflexivity.
Qed.

(** A float that equals [floatN(n)], for a small [n] from 0 on, is the whole
    number [n]. *)
Lemma normalize_small_back t n :
  0 <= n -> (forall q, n = Z.pos q -> Z.pos (digits2_pos q) <= prec) ->
  SFeqb (binary_normalize prec emax n 0 false) t = true ->
  integral t = Some n.
Proof using Hemax Hprec.
  intros Hn Hd. destruct n as [|q|q]; [| |lia]; simpl binary_normalize.
  - destruct t as [|[]| |[] ? ?]; intros H; try discriminate H; reflexivity.
  - rewrite (binary_round_small false q (Hd q eq_refl)).
    destruct t as [[]|[]| |s m e]; try (intros H; discriminate H).
    intros (<- & <- & <-)%SFeqb_finite.
    apply (integral_shl false q). specialize (Hd q eq_refl). lia.
Qed.

(** [floatN(n)], for a small [n] from 0 on, is a float of the format and the
    whole number [n]. *)
Lemma normalize_small n :
  0 <= n -> (forall q, n = Z.pos q -> Z.pos (digits2_pos q) <= prec) ->
  valid_binary prec emax (binary_normalize prec emax n 0 false) = true /\
  integral (binary_normalize prec emax n 0 false) = Some n.
Proof using Hemax Hprec.
  intros Hn Hd. destruct n as [|q|q]; [| |lia]; simpl binary_normalize.
  - auto.
  - specialize (Hd q eq_refl). rewrite (binary_round_small false q Hd).
    split; [apply bounded_shl, Hd|]. apply (integral_shl false q). lia.
Qed.

End SmallIntegers.

Lemma digits_byte q : Z.pos q <= 255 -> Z.pos (digits2_pos q) <= 8.
Proof.
  intros Hq. pose proof (digits_bounds q) as [Hlo _].
  destruct (Z_le_gt_dec (Z.pos (digits2_pos q)) 8) as [|Hgt]; [assumption|].
  assert (2 ^ 8 <= 2 ^ (Z.pos (digits2_pos q) - 1)) by (apply Z.pow_le_mono_r; lia).
  change (2 ^ 8) with 256 in *. lia.
Qed.

Section MoreProperties.

Context `{arch : Arch} {Logger : Type} {rt : Runtime Logger}.

Implicit Types tr : list (Call Logger).

Lemma of_int_byte (fmt : format) n :
  2 <= emax fmt -> prec fmt <= emax fmt -> 8 <= prec fmt ->
  0 <= n <= 255 ->
  valid_binary (prec fmt) (emax fmt) (of_int fmt n) = true /\
  integral (of_int fmt n) = Some n.
Proof.
  intros He Hp H8 Hn. apply normalize_small; try lia.
  intros q ->. pose proof (digits_byte q). lia.
Qed.

(** An element the switch turns into a number from 0 to 255 is that whole
    number: nothing is truncated or wrapped into range. *)
Lemma typeSwitch_byte el n :
  well_formed el = true -> typeSwitch el = inl n -> 0 <= n <= 255 ->
  accepted el = true /\ whole el = Some n.
Proof.
  intros Hwf Hsw Hn. unfold accepted.
  assert (Hin : (0 <=? n) && (n <=? 255) = true).
  { apply andb_true_intro. split; apply Z.leb_le; lia. }
  destruct el; try discriminate; simpl in *;
    try (apply in_range_spec in Hwf; injection Hsw as Hsw).
  1-8: (rewrite int64_small in Hsw by lia; subst; rewrite Hin; auto).
  - destruct (Z_lt_ge_dec z (2 ^ 63)).
    + rewrite int64_small in Hsw by lia. subst. rewrite Hin. auto.
    + rewrite int64_large in Hsw by lia. lia.
  - unfold float_neq in Hsw.
    destruct (SFeqb (of_int binary32 (int64_of_float t)) t) eqn:E; [|discriminate].
    injection Hsw as Hsw. rewrite Hsw in E.
    rewrite (normalize_small_back 24 128 ltac:(lia) ltac:(lia) t n); auto; try lia.
    intros q ->. pose proof (digits_byte q). lia.
  - unfold float_neq in Hsw.
    destruct (SFeqb (of_int binary64 (int64_of_float t)) t) eqn:E; [|discriminate].
    injection Hsw as Hsw. rewrite Hsw in E.
    rewrite (normalize_small_back 53 1024 ltac:(lia) ltac:(lia) t n); auto; try lia.
    intros q ->. pose proof (digits_byte q). lia.
Qed.

Lemma encodeLoop_success s : forall i res out,
  length res = (i + length s)%nat ->
  encodeLoop s i res = (Some out, None) ->
  exists ns, out = take i res ++ ns /\
             Forall2 (fun el n => typeSwitch el = inl n /\ 0 <= n <= 255) s ns.
Proof.
  induction s as [|el s IH]; intros i res out Hlen; simpl.
  - intros [= <-]. exists []. split; [|constructor].
    rewrite app_nil_r, take_ge by (simpl in Hlen; lia). reflexivity.
  - destruct (typeSwitch el) as [n|e] eqn:Hsw; [|discriminate].
    destruct (Z.ltb_spec n 0); [discriminate|].
    destruct (Z.ltb_spec 255 n); [discriminate|]. simpl.
    intros Hloop. apply IH in Hloop as (ns & -> & Hns).
    2:{ rewrite length_insert. simpl in Hlen. lia. }
    exists (n :: ns). split; [|constructor; [split; [exact Hsw|lia]|exact Hns]].
    rewrite (take_S_r _ _ (byte n)).
    + rewrite take_insert_ge by lia. rewrite <- app_assoc. simpl.
      unfold byte. rewrite Z.mod_small by lia. reflexivity.
    + apply list_lookup_insert_eq. simpl in Hlen. lia.
Qed.

Lemma encodeLoop_no_error s : forall i res out,
  encodeLoop s i res = (out, None) -> exists bs, out = Some bs.
Proof.
  induction s as [|el s IH]; intros i res out; simpl.
  - intros [= <-]. eauto.
  - destruct (typeSwitch el); [|discriminate].
    destruct ((z <? 0) || (255 <? z)); [discriminate|]. apply IH.
Qed.


Lemma byteArrayMode_success r out err :
  byteArrayMode r = Returns (out, err) ->
  err = None ->
  exists s bs, r = (otto.Object (ISlice s) None, None) /\ out = Some bs /\
               encodeSlice s = (Some bs, None).
Proof.
  unfold byteArrayMode. destruct r as [v [e|]]; simpl; [congruence|].
  destruct v as [| | | | |exported oe]; try congruence.
  destruct exported, oe; try congruence.
  intros [= Hs] ->. destruct (encodeLoop_no_error _ _ _ _ Hs) as [bs ->].
  exists l, bs. auto.
Qed.

Lemma byteArrayMode_panics r :
  byteArrayMode r = Panics <-> r = (otto.Object INil None, None).
Proof.
  split; [|intros ->; reflexivity].
  unfold byteArrayMode. destruct r as [v [e|]]; simpl; [discriminate|].
  destruct v as [| | | | |exported oe]; try discriminate.
  destruct exported, oe; try discriminate. reflexivity.
Qed.

(** X1. Every byte a successful [Encode] returns lies between 0 and 255, and
    a success only comes from an array result, of the same length as the
    bytes, after exactly one call to the Encoder. *)
Theorem Encode_success_bytes f payload port tr out tr' :
  Encode f payload port tr = (Returns (Some out, None), tr') ->
  Forall (fun b => 0 <= b <= 255) out /\
  exists s,
    Encoder f <> "" /\
    run tr (encoderCall f payload port) = (otto.Object (ISlice s) None, None) /\
    tr' = tr ++ [encoderCall f payload port] /\
    length out = length s.
Proof.
  rewrite Encode_eq. case_decide; [discriminate|]. intros [= Hmode <-].
  apply byteArrayMode_success in Hmode as (s & bs & Hrun & [= <-] & Hs); [|reflexivity].
  apply encodeLoop_success in Hs as (ns & -> & Hns); [|by rewrite length_replicate].
  simpl. split.
  - clear -Hns. induction Hns as [|el n s ns [_ Hn] _ IH]; constructor; assumption.
  - exists s. repeat split; auto. symmetry. eapply Forall2_length, Hns.
Qed.

(** X2. On an array of well-formed elements [Encode] succeeds exactly when
    every element is accepted -- a whole number from 0 to 255 of a type the
    switch handles -- and the bytes are then those numbers: no value is
    truncated or wrapped around into range. *)
Theorem Encode_succeeds_iff_accepted f payload port tr (s : list iface) :
  Encoder f <> "" ->
  run tr (encoderCall f payload port) = (otto.Object (ISlice s) None, None) ->
  Forall (fun el => well_formed el = true) s ->
  (Forall (fun el => accepted el = true) s <->
   exists out, Encode f payload port tr =
                 (Returns (Some out, None), tr ++ [encoderCall f payload port])) /\
  (forall out tr', Encode f payload port tr = (Returns (Some out, None), tr') ->
     Forall2 (fun el b => whole el = Some b) s out).
Proof.
  intros HE Hrun Hwf.
  assert (Heq : Encode f payload port tr =
                  (Returns (encodeSlice s), tr ++ [encoderCall f payload port])).
  { rewrite Encode_eq. case_decide; [contradiction|]. rewrite Hrun. reflexivity. }
  assert (Hconv : forall out, encodeSlice s = (Some out, None) ->
            Forall (fun el => accepted el = true) s /\
            Forall2 (fun el b => whole el = Some b) s out).
  { intros out Hs.
    apply encodeLoop_success in Hs as (ns & -> & Hns); [|by rewrite length_replicate].
    simpl. clear -Hns Hwf.
    induction Hns as [|el n s ns [Hsw Hn] _ IH].
    - split; constructor.
    - apply Forall_cons in Hwf as [Hwf_el Hwf].
      destruct (typeSwitch_byte el n Hwf_el Hsw Hn) as [Hacc Hw].
      destruct (IH Hwf). split; constructor; assumption. }
  split; [split|].
  - intros Hacc.
    destruct (encodeLoop_accepted s 0%nat (replicate (length s) 0)) as (out & _ & Hout);
      [by rewrite length_replicate|apply Forall_and; auto|].
    exists out. rewrite Heq. unfold encodeSlice. rewrite Hout. reflexivity.
  - intros [out Hout]. rewrite Heq in Hout. injection Hout as Hout.
    apply (Hconv out Hout).
  - intros out tr'. rewrite Heq. intros [= Hout _]. apply (Hconv out Hout).
Qed.

Lemma encodeSlice_boxed (box : Z -> iface) zs :
  (forall z, 0 <= z <= 255 ->
     well_formed (box z) = true /\ handled (box z) = true /\ whole (box z) = Some z) ->
  Forall (fun z => 0 <= z <= 255) zs ->
  encodeSlice (box <$> zs) = (Some zs, None).
Proof.
  intros Hbox Hzs.
  destruct (encodeLoop_accepted (box <$> zs) 0%nat (replicate (length (box <$> zs)) 0))
    as (out & Hout & Heq); [by rewrite length_replicate| |].
  { apply Forall_fmap. eapply Forall_impl; [exact Hzs|]. intros z Hz. cbv beta in Hz |- *.
    destruct (Hbox z Hz) as (Hwf & Hh & Hw). split; [assumption|].
    unfold accepted. rewrite Hh, Hw.
    apply andb_true_intro. split; [reflexivity|].
    apply andb_true_intro. split; apply Z.leb_le; lia. }
  unfold encodeSlice. rewrite Heq. simpl. do 2 f_equal.
  clear Heq. revert out Hout. induction Hzs as [|z zs Hz _ IH]; intros out Hout.
  - inversion Hout. reflexivity.
  - simpl in Hout. inversion Hout as [|? b ? out' Hb Hrest]; subst.
    destruct (Hbox z Hz) as (_ & _ & Hw). rewrite Hw in Hb. injection Hb as <-.
    f_equal. apply IH, Hrest.
Qed.

(** X3. An Encoder that returns the numbers of a byte sequence, as bytes,
    as integers of any width that holds them, or as floats, gets exactly
    that byte sequence back from [Encode]. *)
Theorem Encode_returns_the_bytes f payload port tr (box : Z -> iface) zs :
  box ∈ byte_boxings ->
  Forall (fun z => 0 <= z <= 255) zs ->
  Encoder f <> "" ->
  run tr (encoderCall f payload port) = (otto.Object (ISlice (box <$> zs)) None, None) ->
  Encode f payload port tr =
    (Returns (Some zs, None), tr ++ [encoderCall f payload port]).
Proof.
  intros Hbox Hzs HE Hrun.
  rewrite Encode_eq. case_decide; [contradiction|]. rewrite Hrun.
  unfold byteArrayMode. simpl. f_equal. f_equal.
  apply encodeSlice_boxed; [|assumption].
  intros z Hz. unfold byte_boxings in Hbox.
  repeat (apply elem_of_cons in Hbox as [->|Hbox]);
    [..|by apply elem_of_nil in Hbox]; simpl;
    try (repeat split; apply in_range_spec; lia).
  - destruct (of_int_byte binary32 z) as [Hv Hi]; simpl; try lia. auto.
  - destruct (of_int_byte binary64 z) as [Hv Hi]; simpl; try lia. auto.
Qed.




(** X4. When the Encoder runs without error and its result is not an
    array: a non-object is rejected as "does not return an object", an object
    whose export fails returns the export's error, and an object that exports
    to anything but a slice (a map, a Go array, a struct) is rejected as
    "does not return an Array"; no bytes are returned. *)
Theorem Encode_rejects_non_arrays f payload port tr value :
  Encoder f <> "" ->
  run tr (encoderCall f payload port) = (value, None) ->
  (otto.IsObject value = false ->
   Encode f payload port tr =
     (Returns (None, Some (InvalidReturnType "Encoder" "does not return an object")),
      tr ++ [encoderCall f payload port])) /\
  (forall v e, value = otto.Object v (Some e) ->
   Encode f payload port tr =
     (Returns (None, Some e), tr ++ [encoderCall f payload port])) /\
  (forall v, value = otto.Object v None -> is_slice_kind v = Some false ->
   Encode f payload port tr =
     (Returns (None, Some (InvalidReturnType "Encoder" "does not return an Array")),
      tr ++ [encoderCall f payload port])).
Proof.
  intros HE Hrun.
  assert (Heq : Encode f payload port tr =
            (byteArrayMode (value, None), tr ++ [encoderCall f payload port])).
  { rewrite Encode_eq. case_decide; [contradiction|]. rewrite Hrun. reflexivity. }
  rewrite Heq. unfold byteArrayMode. simpl. repeat split.
  - destruct value; try discriminate; reflexivity.
  - intros v e ->. destruct v; reflexivity.
  - intros v -> Hk. destruct v; try discriminate; reflexivity.
Qed.

(** X5. The uplink pipeline always returns.  [Encode], and with it the
    downlink pipeline, panics in exactly one case: the Encoder ran without
    error and its object exports to the nil interface, on which
    [reflect.TypeOf(v).Kind()] fails. *)
Theorem only_a_nil_export_panics :
  (forall (f : UplinkFunctions) payload port tr,
     exists r, (Decode_pipeline f payload port tr).1 = Returns r) /\
  (forall (f : DownlinkFunctions) payload port tr,
     (Encode f payload port tr).1 = Panics <->
     Encoder f <> "" /\
     run tr (encoderCall f payload port) = (otto.Object INil None, None)) /\
  (forall (f : DownlinkFunctions) payload port tr,
     (Encode_pipeline f payload port tr).1 = Panics <->
     (Encode f payload port tr).1 = Panics).
Proof.
  split; [|split].
  - intros f payload port tr. rewrite Decode_pipeline_eq.
    destruct (Decode_returns f payload port tr) as [[d e1] H1].
    destruct (Decode f payload port tr) as [r1 tr1]. simpl in H1. subst r1.
    destruct e1; [eauto|].
    destruct (Convert_returns f d port tr1) as [[c e2] H2].
    destruct (Convert f d port tr1) as [r2 tr2]. simpl in H2. subst r2.
    destruct e2; [eauto|].
    destruct (Validate_returns f c port tr2) as [[v e3] H3].
    destruct (Validate f c port tr2) as [r3 tr3]. simpl in H3. subst r3. eauto.
  - intros f payload port tr. rewrite Encode_eq. case_decide; simpl.
    + split; [discriminate|]. intros [? _]. contradiction.
    + rewrite byteArrayMode_panics. split; [auto|]. intros [_ ?]. assumption.
  - intros f payload port tr. rewrite Encode_pipeline_eq.
    destruct (Encode f payload port tr) as [[[out [e|]]|] tr1]; simpl;
      split; (discriminate || reflexivity).
Qed.

(** X6. An error of the runtime is handed on unchanged, with the zero
    results and whatever value came with it ignored, by each of the four
    functions and by the two pipelines. *)
Theorem runtime_errors_pass_through value e :
  (forall (f : UplinkFunctions) payload port tr,
     Decoder f <> "" ->
     run tr (decoderCall f payload port) = (value, Some e) ->
     Decode f payload port tr =
       (Returns (None, Some e), tr ++ [decoderCall f payload port]) /\
     Decode_pipeline f payload port tr =
       (Returns (None, false, Some e), tr ++ [decoderCall f payload port])) /\
  (forall (f : UplinkFunctions) flds port tr,
     Converter f <> "" ->
     run tr (converterCall f flds port) = (value, Some e) ->
     Convert f flds port tr =
       (Returns (None, Some e), tr ++ [converterCall f flds port])) /\
  (forall (f : UplinkFunctions) flds port tr,
     Validator f <> "" ->
     run tr (validatorCall f flds port) = (value, Some e) ->
     Validate f flds port tr =
       (Returns (false, Some e), tr ++ [validatorCall f flds port])) /\
  (forall (f : DownlinkFunctions) payload port tr,
     Encoder f <> "" ->
     run tr (encoderCall f payload port) = (value, Some e) ->
     Encode f payload port tr =
       (Returns (None, Some e), tr ++ [encoderCall f payload port]) /\
     Encode_pipeline f payload port tr =
       (Returns (None, false, Some e), tr ++ [encoderCall f payload port])).
Proof.
  repeat split; intros.
  - rewrite Decode_eq. case_decide; [contradiction|].
    match goal with H : run _ _ = _ |- _ => rewrite H end. reflexivity.
  - rewrite Decode_pipeline_eq, Decode_eq. case_decide; [contradiction|].
    match goal with H : run _ _ = _ |- _ => rewrite H end. reflexivity.
  - rewrite Convert_eq. case_decide; [contradiction|].
    match goal with H : run _ _ = _ |- _ => rewrite H end. reflexivity.
  - rewrite Validate_eq. case_decide; [contradiction|].
    match goal with H : run _ _ = _ |- _ => rewrite H end. reflexivity.
  - rewrite Encode_eq. case_decide; [contradiction|].
    match goal with H : run _ _ = _ |- _ => rewrite H end. reflexivity.
  - rewrite Encode_pipeline_eq, Encode_eq. case_decide; [contradiction|].
    match goal with H : run _ _ = _ |- _ => rewrite H end. reflexivity.
Qed.

(** X7. When Decode and Convert succeed, the uplink calls each script that
    is set exactly once, in the order Decoder, Converter, Validator: the
    Converter with the fields Decode returned, the Validator with the fields
    Convert returned, and all with the same port. *)
Theorem uplink_calls_each_script_once f payload port tr decoded tr1 converted tr2 :
  Decode f payload port tr = (Returns (decoded, None), tr1) ->
  Convert f decoded port tr1 = (Returns (converted, None), tr2) ->
  (Decode_pipeline f payload port tr).2 =
    tr ++ (if decide (Decoder f = "") then [] else [decoderCall f payload port])
       ++ (if decide (Converter f = "") then [] else [converterCall f decoded port])
       ++ (if decide (Validator f = "") then [] else [validatorCall f converted port]).
Proof.
  intros HD HC. rewrite Decode_pipeline_eq, HD, HC.
  rewrite Decode_eq in HD. rewrite Convert_eq in HC. rewrite Validate_eq.
  repeat case_decide; injection HD as _ <-; injection HC as _ <-;
    try destruct (booleanMode _); simpl;
    rewrite <- ?app_assoc, ?app_nil_r; reflexivity.
Qed.

(** X8. What the downlink pipeline returns has one of two shapes: ok = true,
    no error and a byte slice that is not nil; or ok = false, an error and
    nil bytes. *)
Theorem downlink_outcome f payload port tr out ok err tr' :
  Encode_pipeline f payload port tr = (Returns (out, ok, err), tr') ->
  (ok = true /\ err = None /\ exists bs, out = Some bs) \/
  (ok = false /\ out = None /\ exists e, err = Some e).
Proof.
  rewrite Encode_pipeline_eq, Encode_eq. case_decide.
  - intros [= <- <- <- _]. right. eauto.
  - destruct (byteArrayMode _) as [[o [e|]]|] eqn:Hmode; intros [= <- <- <- _].
    + right. eauto.
    + left. apply byteArrayMode_success in Hmode as (s & bs & _ & -> & _); eauto.
Qed.

(** X9. The uplink reports valid = true only without an error, and only
    when no Validator is set or the Validator, called on the returned fields,
    returned the boolean true. *)
Theorem valid_needs_a_true_validator f payload port tr flds err tr' :
  Decode_pipeline f payload port tr = (Returns (flds, true, err), tr') ->
  err = None /\
  (Validator f = "" \/
   exists tr2, tr' = tr2 ++ [validatorCall f flds port] /\
               run tr2 (validatorCall f flds port) = (otto.Boolean true, None)).
Proof.
  rewrite Decode_pipeline_eq.
  destruct (Decode f payload port tr) as [[[d [e1|]]|] tr1]; try discriminate.
  destruct (Convert f d port tr1) as [[[c [e2|]]|] tr2]; try discriminate.
  rewrite Validate_eq. case_decide.
  - intros [= <- <- _]. auto.
  - unfold booleanMode.
    destruct (run tr2 (validatorCall f c port)) as [val [e|]] eqn:Hrun; simpl;
      [discriminate|].
    destruct val as [| |[]| | |]; try discriminate.
    intros [= <- <- <-]. split; [reflexivity|]. right. eauto.
Qed.







End MoreProperties.

Lemma whole_values_unique (s : list iface) : forall o1 o2 : list Z,
  Forall2 (fun el b => whole el = Some b) s o1 ->
  Forall2 (fun el b => whole el = Some b) s o2 -> o1 = o2.
Proof.
  induction s as [|el s IH]; intros o1 o2 H1 H2; inversion H1; inversion H2; subst.
  - reflexivity.
  - f_equal; [congruence|]. apply IH; assumption.
Qed.

Section Portability.

Context {Logger : Type} {rt : Runtime Logger}.
Variables a1 a2 : Arch.

(** X11. A successful [Encode] does not depend on how the architecture
    converts a float that no [int64] holds: on well-formed elements, success
    on one architecture is the same success on any other. *)
Theorem Encode_success_is_portable f payload port (tr : list (Call Logger)) out tr' :
  (forall s, run tr (encoderCall f payload port) = (otto.Object (ISlice s) None, None) ->
             Forall (fun el => well_formed el = true) s) ->
  Encode (arch := a1) f payload port tr = (Returns (Some out, None), tr') ->
  Encode (arch := a2) f payload port tr = (Returns (Some out, None), tr').
Proof.
  intros Hwf. rewrite !Encode_eq. case_decide; [discriminate|]. intros [= Hmode <-].
  apply byteArrayMode_success in Hmode as (s & bs & Hrun & [= <-] & Hs); [|reflexivity].
  specialize (Hwf s Hrun). rewrite Hrun. unfold byteArrayMode. simpl. do 2 f_equal.
  apply encodeLoop_success in Hs as (ns & -> & Hns); [|by rewrite length_replicate].
  simpl.
  assert (Hacc : Forall (fun el => well_formed el = true /\ accepted el = true) s /\
                 Forall2 (fun el b => whole el = Some b) s ns).
  { clear -Hns Hwf. induction Hns as [|el n s ns [Hsw Hn] _ IH].
    - split; constructor.
    - apply Forall_cons in Hwf as [Hwf_el Hwf].
      destruct (typeSwitch_byte (arch := a1) el n Hwf_el Hsw Hn) as [Ha Hw].
      destruct (IH Hwf). split; constructor; auto. }
  destruct Hacc as [Hacc Hwhole].
  destruct (encodeLoop_accepted (arch := a2) s 0%nat (replicate (length s) 0))
    as (out' & Hout' & Heq); [by rewrite length_replicate|assumption|].
  unfold encodeSlice. rewrite Heq. simpl.
  rewrite (whole_values_unique s out' ns Hout' Hwhole). reflexivity.
Qed.

End Portability.

(** ** Witnesses of the further properties *)

Lemma Encode_success_bytes_witness :
  Forall (fun b => 0 <= b <= 255) [7; 255].
Proof.
  exact (proj1 (Encode_success_bytes (arch := amd64)
           (rt := encoder_returns [IInt64 7; IFloat64 (of_int binary64 255)])
           some_encoder (Some {[ "a" := IInt64 1 ]}) 1 [] [7; 255]
           [encoderCall some_encoder (Some {[ "a" := IInt64 1 ]}) 1] eq_refl)).
Defined.

Lemma Encode_succeeds_iff_accepted_witness :
  Forall2 (fun el b => whole el = Some b)
    [IInt64 7; IFloat64 (of_int binary64 255)] [7; 255].
Proof.
  refine (proj2 (Encode_succeeds_iff_accepted (arch := amd64)
            (rt := encoder_returns [IInt64 7; IFloat64 (of_int binary64 255)])
            some_encoder (Some {[ "a" := IInt64 1 ]}) 1 []
            [IInt64 7; IFloat64 (of_int binary64 255)] _ _ _)
          [7; 255] [encoderCall some_encoder (Some {[ "a" := IInt64 1 ]}) 1] eq_refl).
  - discriminate.
  - reflexivity.
  - repeat constructor.
Defined.

Lemma Encode_returns_the_bytes_witness :
  Encode (arch := amd64)
      (rt := encoder_returns ((fun z => IFloat64 (of_int binary64 z)) <$> [0; 128; 255]))
      some_encoder (Some {[ "a" := IInt64 1 ]}) 1 [] =
    (Returns (Some [0; 128; 255], None),
     [encoderCall some_encoder (Some {[ "a" := IInt64 1 ]}) 1]).
Proof.
  refine (Encode_returns_the_bytes (arch := amd64)
            (rt := encoder_returns ((fun z => IFloat64 (of_int binary64 z)) <$> [0; 128; 255]))
            some_encoder (Some {[ "a" := IInt64 1 ]}) 1 []
            (fun z => IFloat64 (of_int binary64 z)) [0; 128; 255] _ _ _ _).
  - apply list_elem_of_In. simpl. auto 20.
  - repeat constructor; lia.
  - discriminate.
  - reflexivity.
Defined.

Lemma Encode_rejects_non_arrays_witness :
  Encode (arch := amd64) (rt := scripted always_one)
      some_encoder (Some {[ "a" := IInt64 1 ]}) 1 [] =
    (Returns (None, Some (InvalidReturnType "Encoder" "does not return an object")),
     [encoderCall some_encoder (Some {[ "a" := IInt64 1 ]}) 1]).
Proof.
  refine (proj1 (Encode_rejects_non_arrays (arch := amd64) (rt := scripted always_one)
            some_encoder (Some {[ "a" := IInt64 1 ]}) 1 []
            (otto.Number (of_int binary64 1)) _ _) _).
  - discriminate.
  - reflexivity.
  - reflexivity.
Defined.

Lemma runtime_errors_pass_through_witness :
  Encode_pipeline (arch := amd64) (rt := scripted always_late)
      some_encoder (Some {[ "a" := IInt64 1 ]}) 1 [] =
    (Returns (None, false, Some (ErrRuntime "timeout")),
     [encoderCall some_encoder (Some {[ "a" := IInt64 1 ]}) 1]).
Proof.
  refine (proj2 (proj2 (proj2 (proj2
            (runtime_errors_pass_through (arch := amd64) (rt := scripted always_late)
               otto.Undefined (ErrRuntime "timeout"))))
            some_encoder (Some {[ "a" := IInt64 1 ]}) 1 [] _ _)).
  - discriminate.
  - reflexivity.
Defined.

Lemma uplink_calls_each_script_once_witness :
  (Decode_pipeline (rt := scripted validator_says_false)
     decode_and_validate (Some [1]) 1 []).2 =
    [decoderCall decode_and_validate (Some [1]) 1;
     validatorCall decode_and_validate (Some {[ "a" := IInt64 1 ]}) 1].
Proof.
  exact (uplink_calls_each_script_once (rt := scripted validator_says_false)
           decode_and_validate (Some [1]) 1 []
           (Some {[ "a" := IInt64 1 ]}) [decoderCall decode_and_validate (Some [1]) 1]
           (Some {[ "a" := IInt64 1 ]}) [decoderCall decode_and_validate (Some [1]) 1]
           eq_refl eq_refl).
Defined.

Lemma downlink_outcome_witness :
  (true = true /\ (None : option error) = None /\
   exists bs, Some ([] : list Z) = Some bs) \/
  (true = false /\ Some ([] : list Z) = None /\
   exists e, (None : option error) = Some e).
Proof.
  exact (downlink_outcome (arch := amd64) (rt := encoder_returns [])
           some_encoder (Some {[ "a" := IInt64 1 ]}) 1 []
           (Some []) true None
           [encoderCall some_encoder (Some {[ "a" := IInt64 1 ]}) 1] eq_refl).
Defined.

Lemma valid_needs_a_true_validator_witness :
  (None : option error) = None /\
  (Validator decode_and_validate = "" \/
   exists tr2,
     [decoderCall decode_and_validate (Some [1]) 1;
      validatorCall decode_and_validate (Some {[ "a" := IInt64 1 ]}) 1] =
       tr2 ++ [validatorCall decode_and_validate (Some {[ "a" := IInt64 1 ]}) 1] /\
     run (Runtime := scripted validator_says_true) tr2
         (validatorCall decode_and_validate (Some {[ "a" := IInt64 1 ]}) 1) =
       (otto.Boolean true, None)).
Proof.
  exact (valid_needs_a_true_validator (rt := scripted validator_says_true)
           decode_and_validate (Some [1]) 1 []
           (Some {[ "a" := IInt64 1 ]}) None
           [decoderCall decode_and_validate (Some [1]) 1;
            validatorCall decode_and_validate (Some {[ "a" := IInt64 1 ]}) 1]
           eq_refl).
Defined.


Lemma Encode_success_is_portable_witness :
  Encode (arch := arm64) (rt := encoder_returns [IFloat64 (of_int binary64 255)])
      some_encoder (Some {[ "a" := IInt64 1 ]}) 1 [] =
    (Returns (Some [255], None),
     [encoderCall some_encoder (Some {[ "a" := IInt64 1 ]}) 1]).
Proof.
  refine (Encode_success_is_portable (rt := encoder_returns [IFloat64 (of_int binary64 255)])
            amd64 arm64 some_encoder (Some {[ "a" := IInt64 1 ]}) 1 [] [255]
            [encoderCall some_encoder (Some {[ "a" := IInt64 1 ]}) 1] _ eq_refl).
  intros s [= <-]. repeat constructor.
Defined.
